(** * PatentSearchEngine: ranking, filtering and statistics

    A shallow embedding of [src/search_engine.py] (class
    [PatentSearchEngine]) and the properties of its search operations,
    with the loader of [src/data_loader.py] and the places of
    [src/interface.py] that build the engine and read its results.

    Conventions of the embedding:
    - a patent dictionary, whose keys are fixed by the loader's
      [_process_patent], is a record;
    - a Python [int] is a [Z]; a list index is a [nat];
    - a similarity score, a finite float in the source, is a rational [Q],
      compared with [Qle] and [Qeq]: the order of finite floats is the order
      of the rationals they denote;
    - a raised exception is the left injection of a sum; a returned value is
      the right one;
    - the sentence encoder, scikit-learn's [cosine_similarity], numpy's
      [argsort] and [mean], and Python's [str.lower] are library code
      outside the repository: they are the fields of the class [Backend],
      and what the theorems need to know about them is the class
      [BackendSpec]. The mean is the library's, which rounds: nothing is
      assumed of it but its value on a single score. The lower-case form
      is the library's, which follows the Unicode tables: nothing is
      assumed of it but its value on ASCII text. *)

From Stdlib Require Import ZArith QArith Qminmax Lia Ascii String.
From Stdlib Require Import Sorting.Permutation Sorting.Sorted.
From stdpp Require Import gmap strings list sorting.

Open Scope Z_scope.

(** ** Data model *)

(** A processed patent, as [PatentDataLoader._process_patent] builds it. *)
Record patent := Patent {
  document_number : string;
  title : string;
  abstract : string;
  claims : list string;
  detailed_description : list string;
  classification_code : string;
  bibtext_citation : string;
  searchable_text : string
}.

(** A search result: [patent.copy()] with the key ['similarity_score']
    added. *)
Record search_result := SearchResult {
  result_patent : patent;
  similarity_score : Q
}.

(** An embedding vector and the embedding matrix (one row per patent). *)
Definition embedding := list Q.

(** The engine object: [self.patents] and [self.embeddings], the latter
    [None] until [create_embeddings] or [load_embeddings] has run. *)
Record PatentSearchEngine := Engine {
  patents : list patent;
  embeddings : option (list embedding)
}.

(** The exceptions the engine can raise. *)
Inductive exn :=
| ValueError (msg : string)
| IndexError.

Definition no_embeddings_msg : string :=
  "❌ No embeddings! Run create_embeddings() first.".

(** ** Python string operations used by the filters *)

Module PyStr.

(** [s.isascii()]: every character is below 128. *)
Fixpoint isascii (s : string) : bool :=
  match s with
  | EmptyString => true
  | String c s' => (nat_of_ascii c <? 128)%nat && isascii s'
  end.

(** [c.lower()] on one ASCII character. *)
Definition lower_ascii (c : ascii) : ascii :=
  let n := nat_of_ascii c in
  if ((65 <=? n)%nat && (n <=? 90)%nat)%bool then ascii_of_nat (n + 32) else c.

(** [s.lower()] on a string of ASCII characters: the letters A to Z
    become a to z, the other characters stay. What [str.lower] does to
    other text is the field [str_lower] of the class [Backend]. *)
Fixpoint lower (s : string) : string :=
  match s with
  | EmptyString => EmptyString
  | String c s' => String (lower_ascii c) (lower s')
  end.

(** [s.startswith(p)] *)
Fixpoint startswith (s p : string) {struct p} : bool :=
  match p with
  | EmptyString => true
  | String a p' =>
      match s with
      | EmptyString => false
      | String b s' => if Ascii.eqb a b then startswith s' p' else false
      end
  end.

(** [needle in s] *)
Fixpoint contains (s needle : string) : bool :=
  if startswith s needle then true
  else match s with
       | EmptyString => false
       | String _ s' => contains s' needle
       end.

(** Truth value of a string: the empty string is false. *)
Definition truthy (s : string) : bool :=
  match s with EmptyString => false | _ => true end.

End PyStr.

(** ** The libraries behind the engine *)

(** [model_encode q] is [self.model.encode([q])[0]];
    [cosine_similarity q E] is row 0 of scikit-learn's
    [cosine_similarity([q], E)]; [np_argsort s] is [np.argsort(s)];
    [np_mean s] is [np.mean(s)], which rounds; [str_lower s] is Python's
    [s.lower()], which follows the Unicode tables. *)
Class Backend := {
  model_encode : string → embedding;
  cosine_similarity : embedding → list embedding → list Q;
  np_argsort : list Q → list nat;
  np_mean : list Q → Q;
  str_lower : string → string
}.

(** [similarities[idx]]; the default is never read inside the range. *)
Definition score (similarities : list Q) (idx : nat) : Q :=
  nth idx similarities 0%Q.

(** The order of a stable ascending sort: by score, then by index. *)
Definition key_lt (similarities : list Q) (a b : nat) : Prop :=
  (score similarities a < score similarities b)%Q ∨
  ((score similarities a == score similarities b)%Q ∧ (a < b)%nat).

(** What the libraries document: one similarity per row of the matrix;
    [argsort] returns the indices of its argument, by ascending value
    (numpy's default sort kind promises nothing on the order of equal
    values); the mean of one value is that value; on a string of ASCII
    characters [str.lower] changes the letters A to Z and nothing else. *)
Class BackendSpec (B : Backend) : Prop := {
  cosine_similarity_length q E : length (cosine_similarity q E) = length E;
  np_argsort_perm s : Permutation (np_argsort s) (seq 0 (length s));
  np_argsort_sorted s :
    StronglySorted (λ a b, (score s a <= score s b)%Q) (np_argsort s);
  np_mean_single x : (np_mean [x] == x)%Q;
  str_lower_ascii s : PyStr.isascii s = true → str_lower s = PyStr.lower s
}.

(** A stable [argsort] keeps equal values in index order. *)
Definition stable_argsort (B : Backend) : Prop :=
  ∀ s, StronglySorted (key_lt s) (np_argsort s).

(** ** [_apply_filters] *)

Section Filters.
Context {B : Backend}.

(** The body of the loop of [_apply_filters] for one patent: [false] is
    [continue], [true] reaches [valid_indices.append(idx)]. An argument
    that is [None] or the empty string is not truthy and its test is
    skipped. *)
Definition passes_filters (classification_filter title_keyword : option string)
    (p : patent) : bool :=
  (match classification_filter with
   | Some c =>
       if PyStr.truthy c
       then PyStr.startswith (classification_code p) c
       else true
   | None => true
   end)
  &&
  (match title_keyword with
   | Some t =>
       if PyStr.truthy t
       then PyStr.contains (str_lower (title p)) (str_lower t)
       else true
   | None => true
   end).

(** [for idx, patent in enumerate(self.patents)], started at [idx]. *)
Fixpoint filter_loop (classification_filter title_keyword : option string)
    (idx : nat) (ps : list patent) : list nat :=
  match ps with
  | [] => []
  | p :: ps' =>
      if passes_filters classification_filter title_keyword p
      then idx :: filter_loop classification_filter title_keyword (S idx) ps'
      else filter_loop classification_filter title_keyword (S idx) ps'
  end.

(** [_apply_filters]: [None] when both arguments are [None], the list of
    valid indices otherwise. *)
Definition _apply_filters (self : PatentSearchEngine)
    (classification_filter title_keyword : option string) : option (list nat) :=
  match classification_filter, title_keyword with
  | None, None => None
  | _, _ => Some (filter_loop classification_filter title_keyword 0%nat (patents self))
  end.

End Filters.

(** ** [search] *)

Section Search.
Context {B : Backend}.

(** [valid_indices is not None and idx not in valid_indices] *)
Definition skipped (valid_indices : option (list nat)) (idx : nat) : bool :=
  match valid_indices with
  | Some l => negb (bool_decide (idx ∈ l))
  | None => false
  end.

(** The loop [for idx in sorted_indices] of [search]; [results] is the
    list built so far. [self.patents[idx]] raises [IndexError] past the
    end of the list. The test [len(results) >= top_k] comes after the
    [append]. *)
Fixpoint search_loop (self : PatentSearchEngine) (similarities : list Q)
    (valid_indices : option (list nat)) (top_k : Z)
    (sorted_indices : list nat) (results : list search_result)
    : exn + list search_result :=
  match sorted_indices with
  | [] => inr results
  | idx :: rest =>
      if skipped valid_indices idx
      then search_loop self similarities valid_indices top_k rest results
      else
        match patents self !! idx, similarities !! idx with
        | Some p, Some s =>
            let results' := results ++ [SearchResult p s] in
            if Z.of_nat (length results') >=? top_k
            then inr results'
            else search_loop self similarities valid_indices top_k rest results'
        | _, _ => inl IndexError
        end
  end.

(** [search(query, top_k, classification_filter, title_keyword)] *)
Definition search (self : PatentSearchEngine) (query : string) (top_k : Z)
    (classification_filter title_keyword : option string)
    : exn + list search_result :=
  match embeddings self with
  | None => inl (ValueError no_embeddings_msg)
  | Some E =>
      let query_embedding := model_encode query in
      let similarities := cosine_similarity query_embedding E in
      let valid_indices := _apply_filters self classification_filter title_keyword in
      let sorted_indices := rev (np_argsort similarities) in
      search_loop self similarities valid_indices top_k sorted_indices []
  end.

(** ** [search_by_patent_id] *)

(** The lookup loop: the first patent whose number is [document_number],
    with its index. *)
Fixpoint find_patent (document_number' : string) (idx : nat) (ps : list patent)
    : option (nat * patent) :=
  match ps with
  | [] => None
  | p :: ps' =>
      if String.eqb (document_number p) document_number'
      then Some (idx, p)
      else find_patent document_number' (S idx) ps'
  end.

(** [l[:k]] for a Python integer [k]. *)
Definition slice_to {A} (k : Z) (l : list A) : list A :=
  if 0 <=? k then take (Z.to_nat k) l
  else take (length l - Z.to_nat (- k)) l.

(** [search_by_patent_id(document_number, top_k)] *)
Definition search_by_patent_id (self : PatentSearchEngine)
    (document_number' : string) (top_k : Z) : exn + list search_result :=
  match find_patent document_number' 0%nat (patents self) with
  | None => inr []
  | Some (reference_idx, reference_patent) =>
      let query := searchable_text reference_patent in
      match search self query (top_k + 1) None None with
      | inl e => inl e
      | inr results =>
          let results :=
            List.filter
              (λ r, negb (String.eqb (document_number (result_patent r)) document_number'))
              results in
          inr (slice_to top_k results)
      end
  end.

End Search.

(** ** [get_search_statistics] *)

(** A value of the statistics dictionary. *)
Inductive stat_value :=
| SInt (n : Z)
| SFloat (x : Q).

(** [np.max] and [np.min] on a non-empty list of scores: they return one
    of the scores, without rounding. *)
Definition np_max (scores : list Q) : Q :=
  match scores with
  | [] => 0%Q
  | x :: xs => foldl Qmax x xs
  end.

Definition np_min (scores : list Q) : Q :=
  match scores with
  | [] => 0%Q
  | x :: xs => foldl Qmin x xs
  end.

Definition get_search_statistics `{Backend} (results : list search_result)
    : gmap string stat_value :=
  match results with
  | [] => {[ "count" := SInt 0 ]}
  | _ =>
      let scores := map similarity_score results in
      <[ "count" := SInt (Z.of_nat (length results)) ]>
      (<[ "avg_similarity" := SFloat (np_mean scores) ]>
      (<[ "max_similarity" := SFloat (np_max scores) ]>
      (<[ "min_similarity" := SFloat (np_min scores) ]> ∅)))
  end.

(** ** A reference backend

    numpy sorts a short array by insertion: each element, taken in index
    order, moves left past the elements that are strictly greater. The
    result is stable. [dot_similarity] is the cosine similarity of rows and
    queries of norm one; [table_encode] is an encoder given by its table;
    [exact_mean] is the mean before rounding; the texts of the scenarios
    are ASCII texts, on which [str.lower] is [PyStr.lower]. *)

Fixpoint insert_index (s : list Q) (i : nat) (sorted : list nat) : list nat :=
  match sorted with
  | [] => [i]
  | j :: rest =>
      if Qle_bool (score s j) (score s i)
      then j :: insert_index s i rest
      else i :: sorted
  end.

Definition insertion_argsort (s : list Q) : list nat :=
  foldl (λ acc i, insert_index s i acc) [] (seq 0 (length s)).

Definition dot (a b : embedding) : Q :=
  foldr Qplus 0%Q (zip_with Qmult a b).

Definition dot_similarity (q : embedding) (E : list embedding) : list Q :=
  map (dot q) E.

Fixpoint table_encode (table : list (string * embedding)) (text : string)
    : embedding :=
  match table with
  | [] => []
  | (t, v) :: table' => if String.eqb t text then v else table_encode table' text
  end.

(** The mean of the reference backend: the sum over the count, without
    rounding. *)
Definition exact_mean (scores : list Q) : Q :=
  (foldr Qplus 0 scores / inject_Z (Z.of_nat (length scores)))%Q.

Definition table_backend (table : list (string * embedding)) : Backend :=
  {| model_encode := table_encode table;
     cosine_similarity := dot_similarity;
     np_argsort := insertion_argsort;
     np_mean := exact_mean;
     str_lower := PyStr.lower |}.

(** ** The corpora of the scenarios *)

Definition mk_patent (number code title' text : string) : patent :=
  {| document_number := number; title := title'; abstract := "";
     claims := []; detailed_description := [];
     classification_code := code; bibtext_citation := "N/A";
     searchable_text := text |}.

Definition doc_A : patent := mk_patent "A" "B60B" "Wheel hub" "text a".
Definition doc_B : patent := mk_patent "B" "F16H" "Gear box" "text b".
Definition doc_C : patent := mk_patent "C" "B60B" "Wheel rim" "text c".

(** Documents A, B, C with vectors [1,0], [0,1], [1,0]. *)
Definition abc_engine : PatentSearchEngine :=
  {| patents := [doc_A; doc_B; doc_C];
     embeddings := Some [[1; 0]; [0; 1]; [1; 0]]%Q |}.

Definition abc_backend : Backend :=
  table_backend [("text a", [1; 0]); ("text b", [0; 1]); ("text c", [1; 0]);
                 ("wheel", [1; 0])]%Q.

(** The same documents before any embedding is computed or loaded. *)
Definition abc_unloaded : PatentSearchEngine :=
  {| patents := [doc_A; doc_B; doc_C]; embeddings := None |}.

(** Two entries share the number "A"; "B" and "C" are the other documents. *)
Definition dup_engine : PatentSearchEngine :=
  {| patents := [doc_A; mk_patent "A" "B60B" "Wheel hub, again" "text a"; doc_B; doc_C];
     embeddings := Some [[1; 0]; [1; 0]; [0; 1]; [0; 1]]%Q |}.

(** ** Vocabulary of the statements *)

(** An index passes the filters: the loop of [search] does not skip it. *)
Definition admissible (valid_indices : option (list nat)) (idx : nat) : Prop :=
  skipped valid_indices idx = false.

Global Instance admissible_dec valid_indices idx :
  Decision (admissible valid_indices idx).
Proof. unfold admissible. apply _. Defined.

(** The admissible set of an engine, in corpus order. *)
Definition admissible_indices (self : PatentSearchEngine)
    (valid_indices : option (list nat)) : list nat :=
  filter (admissible valid_indices) (seq 0 (length (patents self))).

(** The result built from corpus index [idx]. *)
Definition result_at (self : PatentSearchEngine) (similarities : list Q)
    (idx : nat) : option search_result :=
  match patents self !! idx, similarities !! idx with
  | Some p, Some s => Some (SearchResult p s)
  | _, _ => None
  end.

(** [results] are the results of the corpus indices [idxs], in order. *)
Definition results_of (self : PatentSearchEngine) (similarities : list Q)
    (idxs : list nat) (results : list search_result) : Prop :=
  Forall2 (λ i r, result_at self similarities i = Some r) idxs results.

(** The indices in the order in which the loop of [search] meets them,
    those it skips left out. *)
Definition ranking `{Backend} (similarities : list Q)
    (valid_indices : option (list nat)) : list nat :=
  filter (admissible valid_indices) (rev (np_argsort similarities)).

(** How many results the loop collects when it starts with [have] of
    them: it stops at [top_k], and never before its first [append]. *)
Definition quota (top_k : Z) (have : nat) : nat :=
  Z.to_nat (Z.max 1 (top_k - Z.of_nat have)).

(** The embeddings are loaded, one row per patent. *)
Definition aligned (self : PatentSearchEngine) : Prop :=
  ∃ E, embeddings self = Some E ∧ length E = length (patents self).

(** The similarities [search] computes for [query]. *)
Definition similarities_of `{Backend} (self : PatentSearchEngine)
    (query : string) : list Q :=
  cosine_similarity (model_encode query) (default [] (embeddings self)).

(** The order the specification asks for: the key (-score, index),
    ascending. *)
Definition spec_order (similarities : list Q) (a b : nat) : Prop :=
  (score similarities b < score similarities a)%Q ∨
  ((score similarities a == score similarities b)%Q ∧ (a < b)%nat).

(** [document_number] occurs in the corpus. *)
Definition known (self : PatentSearchEngine) (document_number' : string) : Prop :=
  ∃ p, p ∈ patents self ∧ document_number p = document_number'.

(** [results] are the results of corpus indices that are in the order
    [R]: each earlier index is related to each later one. *)
Definition ranked_by (R : relation nat) (self : PatentSearchEngine)
    (similarities : list Q) (results : list search_result) : Prop :=
  ∃ idxs, results_of self similarities idxs results ∧ StronglySorted R idxs.

(** The results are by descending score. *)
Definition descending (results : list search_result) : Prop :=
  StronglySorted (λ r1 r2, (similarity_score r2 <= similarity_score r1)%Q) results.

(** How many of [results] carry the number [document_number']. *)
Definition count_number (document_number' : string)
    (results : list search_result) : nat :=
  length (List.filter
            (λ r, String.eqb (document_number (result_patent r)) document_number')
            results).

(** Exactly one patent of the corpus carries [number]. *)
Definition carried_once (self : PatentSearchEngine) (number : string) : Prop :=
  ∃ ix p,
    patents self !! ix = Some p ∧ document_number p = number ∧
    ∀ j q, patents self !! j = Some q → document_number q = number → j = ix.

(** [p] is a prefix of [s]; [needle] occurs in [s]. *)
Definition is_prefix (p s : string) : Prop :=
  ∃ rest, s = p +:+ rest.

Definition is_substring (needle s : string) : Prop :=
  ∃ pre post, s = pre +:+ needle +:+ post.

(** A patent satisfies every predicate that is present: the
    classification code begins with the filter, compared as it is; the
    keyword occurs in the title, both taken in lower case. *)
Definition satisfies `{Backend} (classification_filter title_keyword : option string)
    (p : patent) : Prop :=
  (∀ c, classification_filter = Some c → is_prefix c (classification_code p)) ∧
  (∀ t, title_keyword = Some t →
        is_substring (str_lower t) (str_lower (title p))).

(** Two characters are the same up to letter case: they are equal, or one
    is a letter from A to Z and the other is the same letter from a to z. *)
Definition caseless_char (c d : ascii) : Prop :=
  let m := nat_of_ascii c in
  let n := nat_of_ascii d in
  m = n ∨
  ((65 ≤ m)%nat ∧ (m ≤ 90)%nat ∧ n = (m + 32)%nat) ∨
  ((65 ≤ n)%nat ∧ (n ≤ 90)%nat ∧ m = (n + 32)%nat).

(** Two strings are the same up to letter case, character by character. *)
Inductive caseless : string → string → Prop :=
| caseless_nil : caseless "" ""
| caseless_cons c d s t :
    caseless_char c d → caseless s t → caseless (String c s) (String d t).

(** [needle] occurs in [s] up to letter case. *)
Definition contains_caseless (needle s : string) : Prop :=
  ∃ pre u post, s = pre +:+ u +:+ post ∧ caseless u needle.

(** Every title of the corpus is an ASCII text. *)
Definition ascii_titles (self : PatentSearchEngine) : Prop :=
  ∀ p, p ∈ patents self → PyStr.isascii (title p) = true.

(** ** The life of the embeddings: [__init__], [create_embeddings],
       [load_embeddings] *)

(** [encode_batch texts] is [self.model.encode(texts, ...)] on a list of
    texts: the matrix of their embeddings. *)
Class BatchEncoder := {
  encode_batch : list string → list embedding
}.

(** The encoder returns one row per text. *)
Class BatchEncoderSpec (M : BatchEncoder) : Prop := {
  encode_batch_length texts : length (encode_batch texts) = length texts
}.

(** The file system, as far as the pickled matrices go.
    [write_pickle fs path E] is [os.makedirs(os.path.dirname(path),
    exist_ok=True)], [open(path, 'wb')] and [pickle.dump(E, f)]: it returns
    the file system they leave and whether the three of them returned.
    [read_pickle fs path] is [open(path, 'rb')] and [pickle.load(f)]:
    [None] when [open] raises [FileNotFoundError]. *)
Class Files := {
  files : Type;
  write_pickle : files → string → list embedding → files * bool;
  read_pickle : files → string → option (list embedding)
}.

(** A matrix that was written is the matrix that is read at the same
    path. *)
Class FilesSpec (F : Files) : Prop := {
  read_write_pickle fs path E fs' :
    write_pickle fs path E = (fs', true) → read_pickle fs' path = Some E
}.

(** The exception of a failed system call. *)
Inductive os_exn := OSError.

(** The default of [save_path] and of [load_path]. *)
Definition default_path : string := "embeddings/patent_embeddings.pkl".

(** [PatentSearchEngine(patents)]: no embeddings yet. *)
Definition __init__ (patents' : list patent) : PatentSearchEngine :=
  {| patents := patents'; embeddings := None |}.

(** [create_embeddings(save_path)]: the engine and the file system it
    leaves, and the exception of the save if there is one. The embeddings
    are assigned before the save is tried. *)
Definition create_embeddings `{BatchEncoder} `{Files}
    (self : PatentSearchEngine) (fs : files) (save_path : string)
    : PatentSearchEngine * files * (os_exn + unit) :=
  let texts := map searchable_text (patents self) in
  let E := encode_batch texts in
  let self := {| patents := patents self; embeddings := Some E |} in
  let (fs, saved) := write_pickle fs save_path E in
  (self, fs, if saved then inr () else inl OSError).

(** [load_embeddings(load_path)]: the engine it leaves and the boolean it
    returns. The matrix read is taken as it is. *)
Definition load_embeddings `{Files}
    (self : PatentSearchEngine) (fs : files) (load_path : string)
    : PatentSearchEngine * bool :=
  match read_pickle fs load_path with
  | Some E => ({| patents := patents self; embeddings := Some E |}, true)
  | None => (self, false)
  end.

(** What one round of [patent_similarity_mode] tells the user. *)
Inductive similarity_reply :=
| Goodbye
| EmptyInput
| Found (results : list search_result)
| NotFound.

(** One round of the loop of [PatentSearchInterface.patent_similarity_mode],
    from [doc_number], the stripped line that was read: the words that
    leave the loop, the empty line, and the search with [top_k=5], whose
    empty result is reported as a patent that is not in the database. *)
Definition patent_similarity_round `{Backend} (engine : PatentSearchEngine)
    (doc_number : string) : exn + similarity_reply :=
  if bool_decide (PyStr.lower doc_number ∈ ["quit"; "exit"; "q"]) then inr Goodbye
  else if negb (PyStr.truthy doc_number) then inr EmptyInput
  else
    match search_by_patent_id engine doc_number 5 with
    | inl e => inl e
    | inr results =>
        inr (match results with
             | [] => NotFound
             | _ => Found results
             end)
    end.

(** The files of the reference model: a map from paths to matrices, in
    which a save always goes through. *)
Definition map_files : Files :=
  {| files := gmap string (list embedding);
     write_pickle := λ fs path E, (<[path := E]> fs, true);
     read_pickle := λ fs path, fs !! path |}.

(** The batch encoder of a table. *)
Definition table_batch (table : list (string * embedding)) : BatchEncoder :=
  {| encode_batch := map (table_encode table) |}.

(** ** The data loader: [src/data_loader.py]

    The loader keeps the values of the JSON file as they are: a field of a
    processed patent is any JSON value. As in the filters, letter case is
    that of the ASCII letters and a character of a string stands for one
    character of the Python string. Reading the files ([load_all_patents])
    is left to the caller. *)

Module DataLoader.

(** A value that [json.load] returns; a number is an [int] or a finite
    [float]. An object lists its members in the order of the file. *)
#[local] Unset Elimination Schemes.
Inductive json :=
| JNull
| JBool (b : bool)
| JNum (x : Q)
| JStr (s : string)
| JArr (items : list json)
| JObj (members : list (string * json)).
#[local] Set Elimination Schemes.

(** The truth value of a value. *)
Definition truthy (v : json) : bool :=
  match v with
  | JNull => false
  | JBool b => b
  | JNum x => negb (Qeq_bool x 0)
  | JStr s => PyStr.truthy s
  | JArr items => match items with [] => false | _ => true end
  | JObj members => match members with [] => false | _ => true end
  end.

(** [a or b] *)
Definition py_or (a b : json) : json :=
  if truthy a then a else b.

(** [v != text] for a string [text]. *)
Definition differs_from (v : json) (text : string) : bool :=
  match v with
  | JStr s => negb (String.eqb s text)
  | _ => true
  end.

(** [str(v)], also the text of [v] in an f-string. *)
Class Python := {
  py_str : json → string
}.

(** [str] of a string is the string. *)
Class PythonSpec (P : Python) : Prop := {
  py_str_string s : py_str (JStr s) = s
}.

(** [sep.join(parts)] *)
Fixpoint join (sep : string) (parts : list string) : string :=
  match parts with
  | [] => ""
  | part :: rest =>
      match rest with
      | [] => part
      | _ => part +:+ sep +:+ join sep rest
      end
  end.

(** [s[:n]] *)
Fixpoint str_take (n : nat) (s : string) : string :=
  match n, s with
  | S n', String c s' => String c (str_take n' s')
  | _, _ => ""
  end.

(** A processed patent: the dictionary [processed] of [_process_patent]. *)
Record processed := Processed {
  document_number : string;
  title : json;
  abstract : json;
  claims : json;
  detailed_description : json;
  classification_code : json;
  bibtext_citation : json;
  searchable_text : string
}.

(** The exception of a method call on a value that has no such method. *)
Inductive loader_exn := AttributeError.

(** [{k.lower(): v for k, v in patent.items()}]: a later member replaces
    an earlier one of the same lower-case key. *)
Definition lower_map (members : list (string * json)) : gmap string json :=
  foldl (λ m kv, <[PyStr.lower kv.1 := kv.2]> m) ∅ members.

(** [pick] of a list of keys: the value of the first key that the map has, [None]
    when it has none of them. *)
Fixpoint pick (lower_map : gmap string json) (keys : list string) : json :=
  match keys with
  | [] => JNull
  | key :: keys' =>
      match lower_map !! PyStr.lower key with
      | Some v => v
      | None => pick lower_map keys'
      end
  end.

Definition document_number_keys : list string :=
  ["document number"; "document_number"; "doc_number"; "docnumber";
   "publication_number"; "application_number"; "patent_id"; "id"].
Definition title_keys : list string := ["title"; "Title"].
Definition abstract_keys : list string := ["abstract"; "Abstract"].
Definition claims_keys : list string := ["claims"; "Claims"].
Definition detailed_description_keys : list string :=
  ["detailed_description"; "Detailed Description"; "description"].
Definition classification_code_keys : list string :=
  ["classification code"; "classification_code"; "classification"].
Definition bibtext_citation_keys : list string :=
  ["bibtext citation"; "Bibtext Citation"; "bibtex"].

(** [_create_searchable_text(patent)] *)
Definition _create_searchable_text `{Python} (patent : processed) : string :=
  let parts := [] in
  let parts :=
    if truthy (title patent) && differs_from (title patent) "No Title Available"
    then parts ++ ["Title: " +:+ py_str (title patent)]
    else parts in
  let parts :=
    if truthy (abstract patent)
    then parts ++ ["Abstract: " +:+ py_str (abstract patent)]
    else parts in
  let parts :=
    if truthy (claims patent)
    then
      let claims_text :=
        match claims patent with
        | JArr items => join " " (map py_str items)
        | v => py_str v
        end in
      parts ++ ["Claims: " +:+ claims_text]
    else parts in
  let parts :=
    if truthy (detailed_description patent)
    then
      let desc_text :=
        match detailed_description patent with
        | JArr items => join " " (map py_str (take 3 items))
        | v => py_str v
        end in
      parts ++ ["Description: " +:+ str_take 1000 desc_text]
    else parts in
  join " " parts.

(** [_process_patent(patent)]; [object_id] is [id(patent)]. A value that
    is not an object has no [items]. *)
Definition _process_patent `{Python} (object_id : Z) (patent : json)
    : loader_exn + processed :=
  match patent with
  | JObj members =>
      let lower_map := lower_map members in
      let document_number' := pick lower_map document_number_keys in
      let document_number' :=
        if truthy document_number' then document_number'
        else JStr ("PATENT_" +:+ py_str (JNum (inject_Z object_id))) in
      let processed :=
        {| document_number := py_str document_number';
           title := py_or (pick lower_map title_keys) (JStr "No Title Available");
           abstract := py_or (pick lower_map abstract_keys) (JStr "");
           claims := py_or (pick lower_map claims_keys) (JArr []);
           detailed_description :=
             py_or (pick lower_map detailed_description_keys) (JArr []);
           classification_code :=
             py_or (pick lower_map classification_code_keys) (JStr "N/A");
           bibtext_citation :=
             py_or (pick lower_map bibtext_citation_keys) (JStr "N/A");
           searchable_text := "" |} in
      inr {| document_number := document_number processed;
             title := title processed;
             abstract := abstract processed;
             claims := claims processed;
             detailed_description := detailed_description processed;
             classification_code := classification_code processed;
             bibtext_citation := bibtext_citation processed;
             searchable_text := _create_searchable_text processed |}
  | _ => inl AttributeError
  end.

(** [get_patent_by_id(document_number)] *)
Fixpoint get_patent_by_id (patents : list processed) (number : string)
    : option processed :=
  match patents with
  | [] => None
  | patent :: rest =>
      if String.eqb (document_number patent) number
      then Some patent
      else get_patent_by_id rest number
  end.

(** [sum(1 for p in patents if p[field])] *)
Definition count_truthy (field : processed → json) (patents : list processed) : Z :=
  Z.of_nat (length (List.filter (λ p, truthy (field p)) patents)).

(** [get_statistics()] *)
Definition get_statistics (patents : list processed) : gmap string Z :=
  let total := Z.of_nat (length patents) in
  let with_abstract := count_truthy abstract patents in
  let with_claims := count_truthy claims patents in
  <[ "total_patents" := total ]>
  (<[ "with_abstract" := with_abstract ]>
  (<[ "with_claims" := with_claims ]>
  (<[ "missing_abstract" := total - with_abstract ]>
  (<[ "missing_claims" := total - with_claims ]> ∅)))).

(** A [str] for the examples: strings as they are, the empty text for any
    other value. *)
Definition str_of_strings : Python :=
  {| py_str := λ v, match v with JStr s => s | _ => "" end |}.

End DataLoader.

(** ** Lists and orders *)

Section ListFacts.
Context {A : Type}.
Implicit Types (R : relation A) (l : list A).

Lemma StronglySorted_mono R R' l :
  (∀ x y, R x y → R' x y) → StronglySorted R l → StronglySorted R' l.
Proof.
  intros HR. induction 1 as [|x l _ IH Hx]; constructor; [done|].
  eapply Forall_impl; [exact Hx|]. auto.
Qed.

Lemma StronglySorted_sublist R l k :
  k `sublist_of` l → StronglySorted R l → StronglySorted R k.
Proof.
  induction 1 as [|x k l Hs IH|x k l Hs IH]; intros HS.
  - constructor.
  - apply StronglySorted_inv in HS as [HS Hx]. constructor; [auto|].
    rewrite Forall_forall in Hx |- *. intros y Hy.
    apply Hx. eapply elem_of_sublist; eauto.
  - apply StronglySorted_inv in HS as [HS _]. auto.
Qed.

Lemma StronglySorted_rev R l :
  StronglySorted R l → StronglySorted (flip R) (rev l).
Proof.
  induction 1 as [|x l _ IH Hx]; simpl; [constructor|].
  apply StronglySorted_app_2.
  - intros a b Ha Hb. apply list_elem_of_singleton in Hb as ->.
    rewrite Forall_forall in Hx. apply Hx.
    apply list_elem_of_In, in_rev, list_elem_of_In in Ha. exact Ha.
  - exact IH.
  - repeat constructor.
Qed.

Lemma take_prefix_le l (n m : nat) :
  (n ≤ m)%nat → take n l `prefix_of` take m l.
Proof.
  intros Hnm. replace n with (n `min` m)%nat by lia.
  rewrite <- take_take. apply prefix_take.
Qed.

End ListFacts.

(** ** The loop of [search] *)

Section Loop.
Context {B : Backend}.
Variables (self : PatentSearchEngine) (similarities : list Q).
Variables (valid_indices : option (list nat)) (top_k : Z).

Local Abbreviation loop := (search_loop self similarities valid_indices top_k).
Local Abbreviation keep := (filter (admissible valid_indices)).
Local Abbreviation built := (omap (result_at self similarities)).

Lemma quota_pos have : (1 ≤ quota top_k have)%nat.
Proof. unfold quota. lia. Qed.

(** When no admissible index is out of range the loop returns, and what
    it returns is a prefix of the admissible results in loop order. *)
Lemma search_loop_spec sorted_indices results :
  (∀ i, i ∈ sorted_indices → admissible valid_indices i →
        is_Some (result_at self similarities i)) →
  loop sorted_indices results =
    inr (results ++ take (quota top_k (length results))
                         (built (keep sorted_indices))).
Proof.
  revert results.
  induction sorted_indices as [|idx rest IH]; intros results Hok; simpl.
  - by rewrite take_nil, app_nil_r.
  - assert (Hrest : ∀ i, i ∈ rest → admissible valid_indices i →
                         is_Some (result_at self similarities i))
      by (intros i Hi; apply Hok; by right).
    rewrite filter_cons.
    destruct (decide (admissible valid_indices idx)) as [Hadm|Hadm].
    + rewrite Hadm.
      destruct (Hok idx) as [r Hr]; [by left|done|].
      simpl. rewrite Hr. unfold result_at in Hr.
      destruct (patents self !! idx) as [p|]; [|done].
      destruct (similarities !! idx) as [s|]; [|done].
      injection Hr as <-.
      pose proof (quota_pos (length results)) as Hq.
      destruct (quota top_k (length results)) as [|n] eqn:Eq; [lia|].
      simpl. rewrite length_app. simpl.
      destruct (Z.geb_spec (Z.of_nat (length results + 1)) top_k) as [Hge|Hlt].
      * assert (n = 0%nat) as -> by (unfold quota in Eq; lia).
        by rewrite take_0.
      * rewrite IH by done. rewrite length_app. simpl.
        rewrite <- app_assoc. simpl.
        replace (quota top_k (length results + 1)) with n
          by (unfold quota in *; lia).
        done.
    + unfold admissible in Hadm. apply not_false_is_true in Hadm.
      rewrite Hadm. by apply IH.
Qed.

(** Whatever the indices, the loop returns at most [top_k] results, or
    one more than it started with. *)
Lemma search_loop_length sorted_indices results rs :
  loop sorted_indices results = inr rs →
  Z.of_nat (length rs) ≤ Z.max (Z.of_nat (length results) + 1) top_k.
Proof.
  revert results.
  induction sorted_indices as [|idx rest IH]; intros results; simpl.
  - intros [= <-]. lia.
  - destruct (skipped valid_indices idx); [apply IH|].
    destruct (patents self !! idx) as [p|]; [|done].
    destruct (similarities !! idx) as [s|]; [|done].
    destruct (Z.geb_spec (Z.of_nat (length (results ++ [SearchResult p s]))) top_k)
      as [Hge|Hlt].
    + intros [= <-]. rewrite length_app. simpl. lia.
    + intros Hrs. apply IH in Hrs. rewrite length_app in Hrs, Hlt.
      simpl in Hrs, Hlt. lia.
Qed.

(** The loop raises nothing but [IndexError]. *)
Lemma search_loop_error sorted_indices results e :
  loop sorted_indices results = inl e → e = IndexError.
Proof.
  revert results.
  induction sorted_indices as [|idx rest IH]; intros results; simpl; [done|].
  destruct (skipped valid_indices idx); [apply IH|].
  destruct (patents self !! idx) as [p|]; [|by intros [= <-]].
  destruct (similarities !! idx) as [s|]; [|by intros [= <-]].
  destruct (_ >=? _); [done|apply IH].
Qed.

End Loop.

(** ** What [search] returns *)

Lemma StronglySorted_Forall2 {A C} (P : A → C → Prop) (R : relation A)
    (R' : relation C) (l : list A) (k : list C) :
  (∀ a c a' c', P a c → P a' c' → R a a' → R' c c') →
  Forall2 P l k → StronglySorted R l → StronglySorted R' k.
Proof.
  intros HR. induction 1 as [|a c l k Hac Hlk IH]; intros HS; [constructor|].
  apply StronglySorted_inv in HS as [HS Ha]. constructor; [auto|].
  clear IH HS. induction Hlk as [|a' c' l k Hac' _ IH]; [constructor|].
  apply Forall_cons in Ha as [Haa' Ha]. constructor; eauto.
Qed.

Lemma result_at_score self similarities i r :
  result_at self similarities i = Some r →
  patents self !! i = Some (result_patent r) ∧
  similarity_score r = score similarities i.
Proof.
  unfold result_at, score.
  destruct (patents self !! i) as [p|]; [|done].
  destruct (similarities !! i) as [s|] eqn:Hs; [|done].
  intros [= <-]. simpl. split; [done|].
  symmetry. apply nth_lookup_Some with (d := 0%Q) in Hs. exact Hs.
Qed.

Lemma result_at_is_Some self similarities i :
  (i < length (patents self))%nat → (i < length similarities)%nat →
  is_Some (result_at self similarities i).
Proof.
  intros Hp Hs. unfold result_at.
  apply lookup_lt_is_Some_2 in Hp as [p ->].
  apply lookup_lt_is_Some_2 in Hs as [s ->]. by eexists.
Qed.

Lemma results_of_built self similarities idxs :
  (∀ i, i ∈ idxs → is_Some (result_at self similarities i)) →
  results_of self similarities idxs (omap (result_at self similarities) idxs).
Proof.
  unfold results_of. induction idxs as [|i idxs IH]; intros Hok; [constructor|].
  destruct (Hok i) as [r Hr]; [by left|]. simpl. rewrite Hr.
  constructor; [done|]. apply IH. intros j Hj. apply Hok. by right.
Qed.

Lemma results_of_length self similarities idxs rs :
  results_of self similarities idxs rs → length rs = length idxs.
Proof. intros H. symmetry. eapply Forall2_length, H. Qed.

Section SearchFacts.
Context {B : Backend} {HB : BackendSpec B}.

Lemma np_argsort_elem s i : i ∈ np_argsort s ↔ (i < length s)%nat.
Proof. rewrite (np_argsort_perm s), elem_of_seq. lia. Qed.

Lemma ranking_elem s valid_indices i :
  i ∈ ranking s valid_indices ↔
  admissible valid_indices i ∧ (i < length s)%nat.
Proof.
  unfold ranking. rewrite list_elem_of_filter, <- np_argsort_elem.
  by rewrite list_elem_of_In, <- in_rev, <- list_elem_of_In.
Qed.

(** The loop meets every admissible index once. *)
Lemma ranking_perm self s valid_indices :
  length s = length (patents self) →
  ranking s valid_indices ≡ₚ admissible_indices self valid_indices.
Proof.
  intros Hlen. unfold ranking, admissible_indices.
  apply filter_Permutation. rewrite <- Hlen, <- (np_argsort_perm s).
  symmetry. apply Permutation_rev.
Qed.

(** It meets them by descending score. *)
Lemma ranking_descending s valid_indices :
  StronglySorted (λ a b, (score s b <= score s a)%Q) (ranking s valid_indices).
Proof.
  unfold ranking. eapply StronglySorted_sublist; [apply sublist_filter|].
  apply (StronglySorted_rev _ _ (np_argsort_sorted s)).
Qed.

(** With a stable [argsort], equal scores come by descending index. *)
Lemma ranking_stable s valid_indices :
  stable_argsort B →
  StronglySorted (λ a b, key_lt s b a) (ranking s valid_indices).
Proof.
  intros Hst. unfold ranking.
  eapply StronglySorted_sublist; [apply sublist_filter|].
  apply (StronglySorted_rev _ _ (Hst s)).
Qed.

Lemma similarities_of_length self query :
  length (similarities_of self query) = length (default [] (embeddings self)).
Proof. apply cosine_similarity_length. Qed.

(** On an engine whose embeddings are loaded, one row per patent,
    [search] returns the results of the first [quota top_k 0] indices of
    the ranking. *)
Lemma search_eq self query top_k cf tk :
  aligned self →
  search self query top_k cf tk =
    inr (take (quota top_k 0)
           (omap (result_at self (similarities_of self query))
              (ranking (similarities_of self query)
                 (_apply_filters self cf tk)))).
Proof.
  intros (E & HE & Hlen).
  pose proof (similarities_of_length self query) as Hs.
  unfold search, similarities_of in *. rewrite HE in *. simpl in *.
  rewrite search_loop_spec; [reflexivity|].
  intros i Hi Hadm. apply result_at_is_Some; [|rewrite Hs, Hlen];
    rewrite <- Hlen, <- Hs; apply np_argsort_elem;
    by apply list_elem_of_In, in_rev, list_elem_of_In in Hi.
Qed.

Lemma ranking_results self query valid_indices :
  aligned self →
  results_of self (similarities_of self query)
    (ranking (similarities_of self query) valid_indices)
    (omap (result_at self (similarities_of self query))
       (ranking (similarities_of self query) valid_indices)).
Proof.
  intros (E & HE & Hlen).
  pose proof (similarities_of_length self query) as Hs.
  rewrite HE in Hs. simpl in Hs.
  apply results_of_built.
  intros i [_ Hi]%ranking_elem. apply result_at_is_Some; lia.
Qed.

Lemma search_ranked self query top_k cf tk :
  aligned self →
  ∃ rs,
    search self query top_k cf tk = inr rs ∧
    results_of self (similarities_of self query)
      (take (quota top_k 0)
            (ranking (similarities_of self query) (_apply_filters self cf tk)))
      rs.
Proof.
  intros Hal. eexists. split; [by apply search_eq|].
  by apply Forall2_take, ranking_results.
Qed.

End SearchFacts.

(** ** The reference backend meets [BackendSpec] and is stable *)

Section InsertionArgsort.
Variable s : list Q.

Lemma key_lt_trans a b c : key_lt s a b → key_lt s b c → key_lt s a c.
Proof.
  unfold key_lt.
  intros [Hab|[Hab Hab']] [Hbc|[Hbc Hbc']].
  - left. by eapply Qlt_trans.
  - left. by rewrite <- Hbc.
  - left. by rewrite Hab.
  - right. split; [by rewrite Hab|lia].
Qed.

Lemma key_lt_le a b : key_lt s a b → (score s a <= score s b)%Q.
Proof.
  intros [H|[H _]]; [by apply Qlt_le_weak|]. rewrite H. apply Qle_refl.
Qed.

Lemma insert_index_perm i l : insert_index s i l ≡ₚ i :: l.
Proof.
  induction l as [|j l IH]; simpl; [done|].
  destruct (Qle_bool _ _); [|done].
  rewrite IH. apply perm_swap.
Qed.

Lemma insert_index_sorted i l :
  Forall (λ j, (j < i)%nat) l →
  StronglySorted (key_lt s) l →
  StronglySorted (key_lt s) (insert_index s i l).
Proof.
  induction l as [|j l IH]; simpl; intros Hlt HS.
  - repeat constructor.
  - apply Forall_cons in Hlt as [Hj Hlt].
    apply StronglySorted_inv in HS as [HS Hjl].
    destruct (Qle_bool (score s j) (score s i)) eqn:Hle.
    + apply Qle_bool_iff, Qle_lteq in Hle.
      constructor; [auto|].
      rewrite insert_index_perm. constructor; [|done].
      destruct Hle as [Hle|Heq]; [by left|by right].
    + assert (Hij : key_lt s i j).
      { left. apply Qnot_le_lt. intros H%Qle_bool_iff. congruence. }
      constructor; [by constructor|].
      constructor; [done|].
      eapply Forall_impl; [exact Hjl|].
      intros k Hjk. by eapply key_lt_trans.
Qed.

Lemma insertion_fold_perm acc l :
  foldl (λ acc i, insert_index s i acc) acc l ≡ₚ acc ++ l.
Proof.
  revert acc. induction l as [|i l IH]; intros acc; simpl.
  - by rewrite app_nil_r.
  - rewrite IH, insert_index_perm. simpl. apply Permutation_middle.
Qed.

Lemma insertion_fold_sorted len start acc :
  Forall (λ j, (j < start)%nat) acc →
  StronglySorted (key_lt s) acc →
  StronglySorted (key_lt s)
    (foldl (λ acc i, insert_index s i acc) acc (seq start len)).
Proof.
  revert start acc. induction len as [|len IH]; intros start acc Hlt HS; [done|].
  simpl. apply IH; [|by apply insert_index_sorted].
  rewrite insert_index_perm. constructor; [lia|].
  eapply Forall_impl; [exact Hlt|]. simpl. lia.
Qed.

End InsertionArgsort.

Lemma insertion_argsort_perm s :
  insertion_argsort s ≡ₚ seq 0 (length s).
Proof. unfold insertion_argsort. by rewrite insertion_fold_perm. Qed.

Lemma insertion_argsort_stable s :
  StronglySorted (key_lt s) (insertion_argsort s).
Proof. apply insertion_fold_sorted; constructor. Qed.

Lemma table_backend_spec table : BackendSpec (table_backend table).
Proof.
  split; simpl.
  - intros q E. unfold dot_similarity. apply length_map.
  - apply insertion_argsort_perm.
  - intros s. eapply StronglySorted_mono; [apply key_lt_le|].
    apply insertion_argsort_stable.
  - intros x. unfold exact_mean. simpl. field.
  - done.
Qed.

Lemma table_backend_stable table : stable_argsort (table_backend table).
Proof. intros s. apply insertion_argsort_stable. Qed.

(** ** The filters *)

Lemma append_nil_l (t : string) : "" +:+ t = t.
Proof. reflexivity. Qed.

Lemma append_cons_l c (s t : string) : String c s +:+ t = String c (s +:+ t).
Proof. reflexivity. Qed.

Lemma startswith_spec s p : PyStr.startswith s p = true ↔ is_prefix p s.
Proof.
  unfold is_prefix. revert s. induction p as [|a p IH]; intros s; simpl.
  - split; [intros _; by exists s|done].
  - setoid_rewrite append_cons_l. destruct s as [|b s].
    + split; [done|]. by intros [rest ?].
    + destruct (Ascii.eqb_spec a b) as [->|Hne].
      * rewrite IH. split; intros [rest H]; exists rest; congruence.
      * split; [done|]. intros [rest H]. congruence.
Qed.

Lemma is_substring_cons needle c s :
  is_substring needle (String c s) ↔
  is_prefix needle (String c s) ∨ is_substring needle s.
Proof.
  unfold is_substring, is_prefix. split.
  - intros ([|c' pre] & post & H).
    + left. by exists post.
    + right. exists pre, post. rewrite append_cons_l in H. congruence.
  - intros [[rest H]|(pre & post & H)].
    + by exists "", rest.
    + exists (String c pre), post. by rewrite append_cons_l, H.
Qed.

Lemma contains_spec s needle :
  PyStr.contains s needle = true ↔ is_substring needle s.
Proof.
  induction s as [|c s IH]; simpl.
  - destruct (PyStr.startswith "" needle) eqn:Hs.
    + split; [intros _|done]. apply startswith_spec in Hs as [rest H].
      by exists "", rest.
    + split; [done|]. intros ([|? ?] & post & H); [|done].
      assert (PyStr.startswith "" needle = true); [|congruence].
      apply startswith_spec. by exists post.
  - rewrite is_substring_cons, <- startswith_spec, <- IH.
    destruct (PyStr.startswith (String c s) needle);
      (split; [auto|]); [done|by intros [?|?]].
Qed.

Lemma classification_test_spec cf p :
  match cf with
  | Some c =>
      if PyStr.truthy c then PyStr.startswith (classification_code p) c else true
  | None => true
  end = true ↔
  ∀ c, cf = Some c → is_prefix c (classification_code p).
Proof.
  destruct cf as [[|a c]|]; unfold PyStr.truthy.
  - split; [|done]. intros _ c [= <-]. by exists (classification_code p).
  - rewrite (startswith_spec _ (String a c)).
    split; [by intros H c' [= <-]|auto].
  - split; [by intros _ c|done].
Qed.

(** *** Letter case on ASCII text *)

Lemma nat_of_lower_ascii c :
  nat_of_ascii (PyStr.lower_ascii c) =
    if ((65 <=? nat_of_ascii c)%nat && (nat_of_ascii c <=? 90)%nat)%bool
    then (nat_of_ascii c + 32)%nat else nat_of_ascii c.
Proof.
  unfold PyStr.lower_ascii.
  destruct ((65 <=? nat_of_ascii c)%nat && (nat_of_ascii c <=? 90)%nat) eqn:Hc;
    [|done].
  apply andb_true_iff in Hc as [H1%Nat.leb_le H2%Nat.leb_le].
  apply nat_ascii_embedding. lia.
Qed.

Lemma nat_of_ascii_inj c d : nat_of_ascii c = nat_of_ascii d → c = d.
Proof.
  intros H. rewrite <- (ascii_nat_embedding c), <- (ascii_nat_embedding d).
  by rewrite H.
Qed.

Lemma lower_ascii_caseless c d :
  PyStr.lower_ascii c = PyStr.lower_ascii d ↔ caseless_char c d.
Proof.
  unfold caseless_char. split.
  - intros H%(f_equal nat_of_ascii). rewrite !nat_of_lower_ascii in H.
    destruct (Nat.leb_spec 65 (nat_of_ascii c)), (Nat.leb_spec (nat_of_ascii c) 90),
      (Nat.leb_spec 65 (nat_of_ascii d)), (Nat.leb_spec (nat_of_ascii d) 90);
      simpl in H; lia.
  - intros H. apply nat_of_ascii_inj. rewrite !nat_of_lower_ascii.
    destruct (Nat.leb_spec 65 (nat_of_ascii c)), (Nat.leb_spec (nat_of_ascii c) 90),
      (Nat.leb_spec 65 (nat_of_ascii d)), (Nat.leb_spec (nat_of_ascii d) 90);
      simpl; lia.
Qed.

Lemma lower_caseless s t : PyStr.lower s = PyStr.lower t ↔ caseless s t.
Proof.
  split.
  - revert t. induction s as [|c s IH]; intros [|d t] H; simpl in H; try done.
    + constructor.
    + injection H as Hc Hs. constructor; [by apply lower_ascii_caseless|auto].
  - induction 1 as [|c d s t Hc _ IH]; [done|].
    simpl. apply lower_ascii_caseless in Hc. by rewrite Hc, IH.
Qed.

Lemma lower_app a b : PyStr.lower (a +:+ b) = PyStr.lower a +:+ PyStr.lower b.
Proof.
  induction a as [|c a IH]; [done|].
  rewrite append_cons_l. simpl. by rewrite IH, append_cons_l.
Qed.

Lemma lower_split s a b :
  PyStr.lower s = a +:+ b →
  ∃ s1 s2, s = s1 +:+ s2 ∧ PyStr.lower s1 = a ∧ PyStr.lower s2 = b.
Proof.
  revert s. induction a as [|c a IH]; intros s H.
  - by exists "", s.
  - rewrite append_cons_l in H. destruct s as [|d s]; [done|].
    simpl in H. injection H as Hc Hs.
    destruct (IH s Hs) as (s1 & s2 & -> & H1 & H2).
    exists (String d s1), s2. rewrite append_cons_l. simpl.
    by rewrite Hc, H1.
Qed.

(** On lower-cased texts containment is containment up to letter case. *)
Lemma is_substring_lower t s :
  is_substring (PyStr.lower t) (PyStr.lower s) ↔ contains_caseless t s.
Proof.
  unfold is_substring, contains_caseless. split.
  - intros (pre' & post' & H).
    apply lower_split in H as (pre & rest & -> & Hpre & H).
    apply lower_split in H as (u & post & -> & Hu & Hpost).
    exists pre, u, post. split; [done|]. by apply lower_caseless.
  - intros (pre & u & post & -> & Hu%lower_caseless).
    exists (PyStr.lower pre), (PyStr.lower post).
    by rewrite !lower_app, Hu.
Qed.

Lemma lower_ascii_idemp c : PyStr.lower_ascii (PyStr.lower_ascii c) = PyStr.lower_ascii c.
Proof.
  unfold PyStr.lower_ascii.
  destruct ((65 <=? nat_of_ascii c)%nat && (nat_of_ascii c <=? 90)%nat) eqn:Hc;
    [|by rewrite Hc].
  apply andb_true_iff in Hc as [H1%Nat.leb_le H2%Nat.leb_le].
  rewrite nat_ascii_embedding by lia.
  replace ((65 <=? nat_of_ascii c + 32)%nat && (nat_of_ascii c + 32 <=? 90)%nat)
    with false; [done|].
  symmetry. apply andb_false_iff. right. apply Nat.leb_gt. lia.
Qed.

Lemma lower_idemp s : PyStr.lower (PyStr.lower s) = PyStr.lower s.
Proof.
  induction s as [|c s IH]; simpl; [done|]. by rewrite lower_ascii_idemp, IH.
Qed.

Section FilterFacts.
Context {B : Backend} {HB : BackendSpec B}.

Lemma str_lower_empty : str_lower "" = "".
Proof. by rewrite str_lower_ascii. Qed.

Lemma title_test_spec tk p :
  match tk with
  | Some t =>
      if PyStr.truthy t
      then PyStr.contains (str_lower (title p)) (str_lower t)
      else true
  | None => true
  end = true ↔
  ∀ t, tk = Some t → is_substring (str_lower t) (str_lower (title p)).
Proof.
  destruct tk as [[|a t]|]; unfold PyStr.truthy.
  - split; [|done]. intros _ t [= <-]. rewrite str_lower_empty.
    by exists "", (str_lower (title p)).
  - rewrite (contains_spec _ (str_lower (String a t))).
    split; [by intros H t' [= <-]|auto].
  - split; [by intros _ t|done].
Qed.

Lemma passes_filters_spec cf tk p :
  passes_filters cf tk p = true ↔ satisfies cf tk p.
Proof.
  unfold passes_filters, satisfies.
  by rewrite andb_true_iff, classification_test_spec, title_test_spec.
Qed.

Lemma filter_loop_spec cf tk ps idx i :
  i ∈ filter_loop cf tk idx ps ↔
  (idx ≤ i)%nat ∧ ∃ p, ps !! (i - idx)%nat = Some p ∧ passes_filters cf tk p = true.
Proof.
  revert idx. induction ps as [|q ps IH]; intros idx; simpl.
  - rewrite elem_of_nil. split; [done|].
    intros [_ (p & Hp & _)]. by rewrite lookup_nil in Hp.
  - assert (Hshift : (S idx ≤ i)%nat →
                     (q :: ps) !! (i - idx)%nat = ps !! (i - S idx)%nat).
    { intros H. replace (i - idx)%nat with (S (i - S idx)) by lia. done. }
    destruct (passes_filters cf tk q) eqn:Hq.
    + rewrite elem_of_cons, IH. split.
      * intros [->|[Hle (p & Hp & Hpass)]].
        -- split; [lia|]. exists q. by rewrite Nat.sub_diag.
        -- split; [lia|]. exists p. by rewrite Hshift.
      * intros [Hle (p & Hp & Hpass)].
        destruct (decide (i = idx)) as [->|Hne]; [by left|right].
        split; [lia|]. exists p. by rewrite <- Hshift by lia.
    + rewrite IH. split.
      * intros [Hle (p & Hp & Hpass)]. split; [lia|]. exists p. by rewrite Hshift.
      * intros [Hle (p & Hp & Hpass)].
        destruct (decide (i = idx)) as [->|Hne].
        { rewrite Nat.sub_diag in Hp. simpl in Hp. congruence. }
        split; [lia|]. exists p. by rewrite <- Hshift by lia.
Qed.

Lemma apply_filters_Some self cf tk :
  is_Some cf ∨ is_Some tk →
  _apply_filters self cf tk = Some (filter_loop cf tk 0 (patents self)).
Proof.
  unfold _apply_filters. destruct cf, tk; try done.
  intros [[? ?]|[? ?]]; done.
Qed.

Lemma apply_filters_elem_iff self cf tk i :
  i ∈ filter_loop cf tk 0 (patents self) ↔
  ∃ p, patents self !! i = Some p ∧ satisfies cf tk p.
Proof.
  rewrite filter_loop_spec, Nat.sub_0_r.
  setoid_rewrite passes_filters_spec.
  split; [by intros [_ H]|]. intros H. split; [lia|done].
Qed.

(** On ASCII titles and an ASCII keyword, a patent satisfies the filters
    exactly when its code begins with the classification filter and its
    title contains the keyword up to letter case. *)
Lemma satisfies_ascii cf tk p :
  (∀ t, tk = Some t → PyStr.isascii t = true) →
  PyStr.isascii (title p) = true →
  satisfies cf tk p ↔
  (∀ c, cf = Some c → is_prefix c (classification_code p)) ∧
  (∀ t, tk = Some t → contains_caseless t (title p)).
Proof.
  intros Ht Hp. unfold satisfies.
  split; intros [Hc Hk]; (split; [done|]); intros t Htk; specialize (Hk t Htk).
  - rewrite !str_lower_ascii in Hk by auto. by apply is_substring_lower.
  - rewrite !str_lower_ascii by auto. by apply is_substring_lower.
Qed.

End FilterFacts.

(** C5: when at least one predicate is present, [_apply_filters] returns a
    list of indices, and a corpus index is in it exactly when the patent at
    that index satisfies every present predicate: the classification code
    begins with the filter (compared as it is), and the lower-case form of
    the keyword occurs in the lower-case form of the title. For an ASCII
    keyword and ASCII titles this is containment up to letter case: the
    title has a part that is the keyword, letter for letter, but for the
    case of the letters A to Z. With the prefix "B60" over the codes
    "B60B", "F16H", "B60B" the list is [0; 2]. *)
Theorem apply_filters_admissible :
  (∀ (B : Backend), BackendSpec B → ∀ self cf tk,
     is_Some cf ∨ is_Some tk →
     ∃ valid_indices,
       _apply_filters self cf tk = Some valid_indices ∧
       (∀ i, i ∈ valid_indices ↔
             ∃ p, patents self !! i = Some p ∧ satisfies cf tk p) ∧
       ((∀ t, tk = Some t → PyStr.isascii t = true) → ascii_titles self →
        ∀ i, i ∈ valid_indices ↔
             ∃ p, patents self !! i = Some p ∧
                  (∀ c, cf = Some c → is_prefix c (classification_code p)) ∧
                  (∀ t, tk = Some t → contains_caseless t (title p)))) ∧
  map classification_code (patents abc_engine) = ["B60B"; "F16H"; "B60B"] ∧
  @_apply_filters abc_backend abc_engine (Some "B60") None = Some [0; 2]%nat.
Proof.
  split; [|done].
  intros B HB self cf tk Hpresent.
  exists (filter_loop cf tk 0 (patents self)).
  split; [by apply apply_filters_Some|]. split.
  - intros i. apply apply_filters_elem_iff.
  - intros Ht Htitles i. rewrite apply_filters_elem_iff.
    split; intros (p & Hp & Hsat); exists p; (split; [done|]);
      apply (satisfies_ascii cf tk p Ht); try done;
      apply Htitles; by eapply list_elem_of_lookup_2.
Qed.

Lemma abc_ascii_titles : ascii_titles abc_engine.
Proof.
  intros p Hp. simpl in Hp.
  repeat (apply elem_of_cons in Hp as [->|Hp]; [done|]).
  by apply elem_of_nil in Hp.
Qed.

Lemma apply_filters_admissible_witness :
  ∃ valid_indices,
    @_apply_filters abc_backend abc_engine None (Some "RIM") = Some valid_indices ∧
    (∀ i, i ∈ valid_indices ↔
          ∃ p, patents abc_engine !! i = Some p ∧
               @satisfies abc_backend None (Some "RIM") p) ∧
    ((∀ t, Some "RIM" = Some t → PyStr.isascii t = true) →
     ascii_titles abc_engine →
     ∀ i, i ∈ valid_indices ↔
          ∃ p, patents abc_engine !! i = Some p ∧
               (∀ c, None = Some c → is_prefix c (classification_code p)) ∧
               (∀ t, Some "RIM" = Some t → contains_caseless t (title p))).
Proof.
  apply (proj1 apply_filters_admissible abc_backend (table_backend_spec _)
           abc_engine None (Some "RIM")).
  right. by eexists.
Defined.

(** ** The order and the number of the results of [search] *)

Section SearchTheorems.
Context {B : Backend} {HB : BackendSpec B}.
Variables (self : PatentSearchEngine) (query : string).
Variables (classification_filter title_keyword : option string).

Local Abbreviation sims := (similarities_of self query).
Local Abbreviation valid :=
  (_apply_filters self classification_filter title_keyword).

(** C1, as the code has it: on an engine whose embeddings are loaded, one
    row per patent, [search] returns its results by descending score.
    Results with equal scores are in the order in which the reversed
    [argsort] leaves them; when [argsort] is stable that is by descending
    corpus index: the results are those of indices in the order of the
    key (score, index), descending. *)
Theorem search_order top_k :
  aligned self →
  ∃ rs,
    search self query top_k classification_filter title_keyword = inr rs ∧
    descending rs ∧
    (stable_argsort B → ranked_by (λ a b, key_lt sims b a) self sims rs).
Proof.
  intros Hal.
  destruct (search_ranked self query top_k classification_filter title_keyword Hal)
    as (rs & Hrs & Hres).
  exists rs. split; [done|]. split.
  - eapply (StronglySorted_Forall2 _ (λ a b, (score sims b <= score sims a)%Q));
      [|exact Hres|].
    + intros a r a' r' [_ Ha]%result_at_score [_ Ha']%result_at_score Hle.
      by rewrite Ha, Ha'.
    + eapply StronglySorted_sublist; [apply sublist_take|].
      apply ranking_descending.
  - intros Hst. eexists. split; [exact Hres|].
    eapply StronglySorted_sublist; [apply sublist_take|].
    by apply ranking_stable.
Qed.

(** The two ends of [top_k]: with [top_k ≤ 0] the loop still appends
    once before it tests the length, so [search] returns one result when
    an index is admissible; with [top_k] above the size of the admissible
    set it returns the results of all admissible indices. *)
Lemma search_top_k_edges top_k :
  aligned self →
  ∃ idxs rs,
    search self query top_k classification_filter title_keyword = inr rs ∧
    results_of self sims idxs rs ∧
    (top_k ≤ 0 →
     length rs = (1 `min` length (admissible_indices self valid))%nat) ∧
    (Z.of_nat (length (admissible_indices self valid)) < top_k →
     idxs ≡ₚ admissible_indices self valid).
Proof.
  intros Hal.
  destruct (search_ranked self query top_k classification_filter title_keyword Hal)
    as (rs & Hrs & Hres).
  assert (Hperm : ranking sims valid ≡ₚ admissible_indices self valid).
  { apply ranking_perm. rewrite similarities_of_length.
    destruct Hal as (E & -> & Hlen). done. }
  eexists _, rs. split; [done|]. split; [exact Hres|]. split.
  - intros Hk. rewrite (results_of_length _ _ _ _ Hres), length_take, Hperm.
    unfold quota. f_equal. lia.
  - intros Hk. rewrite take_ge; [done|].
    rewrite Hperm. unfold quota. lia.
Qed.

(** C9: on an engine whose embeddings are loaded, one row per patent,
    and for the same query and filters, the results of [search] with
    [top_k = k] are a prefix of its results with [top_k = k + m], for
    every [k] and every [m ≥ 0]. *)
Theorem search_top_k_prefix k m :
  aligned self → 0 ≤ m →
  ∃ rs1 rs2,
    search self query k classification_filter title_keyword = inr rs1 ∧
    search self query (k + m) classification_filter title_keyword = inr rs2 ∧
    rs1 `prefix_of` rs2.
Proof.
  intros Hal Hm. eexists _, _.
  split; [by apply search_eq|]. split; [by apply search_eq|].
  apply take_prefix_le. unfold quota. lia.
Qed.

End SearchTheorems.

Lemma abc_engine_aligned : aligned abc_engine.
Proof. by eexists. Qed.

Lemma dup_engine_aligned : aligned dup_engine.
Proof. by eexists. Qed.

Lemma search_order_witness :
  ∃ rs,
    @search abc_backend abc_engine "wheel" 2 None None = inr rs ∧
    descending rs ∧
    (stable_argsort abc_backend →
     ranked_by
       (λ a b, key_lt (@similarities_of abc_backend abc_engine "wheel") b a)
       abc_engine (@similarities_of abc_backend abc_engine "wheel") rs).
Proof.
  apply (@search_order abc_backend (table_backend_spec _) abc_engine "wheel"
           None None 2).
  exists [[1; 0]; [0; 1]; [1; 0]]%Q. split; reflexivity.
Defined.

Lemma search_top_k_prefix_witness :
  ∃ rs1 rs2,
    @search abc_backend abc_engine "wheel" 1 (Some "B60") None = inr rs1 ∧
    @search abc_backend abc_engine "wheel" (1 + 1) (Some "B60") None = inr rs2 ∧
    rs1 `prefix_of` rs2.
Proof.
  apply (@search_top_k_prefix abc_backend (table_backend_spec _) abc_engine
           "wheel" (Some "B60") None 1 1).
  - exists [[1; 0]; [0; 1]; [1; 0]]%Q. split; reflexivity.
  - lia.
Defined.

(** C1, as the specification words it, fails on the corpus A [1,0],
    B [0,1], C [1,0] with the query vector [1,0] and [top_k = 2]: the
    results are C then A, both of score 1, and they are not the results of
    indices in the order of the key (-score, index). *)
Lemma search_ties_not_ascending :
  @search abc_backend abc_engine "wheel" 2 None None
    = inr [SearchResult doc_C 1; SearchResult doc_A 1] ∧
  ¬ ranked_by (spec_order (@similarities_of abc_backend abc_engine "wheel"))
      abc_engine (@similarities_of abc_backend abc_engine "wheel")
      [SearchResult doc_C 1; SearchResult doc_A 1].
Proof.
  split; [reflexivity|].
  intros (idxs & Hres & HS).
  apply Forall2_cons_inv_r in Hres as (i & idxs' & Hi & Hres & ->).
  apply Forall2_cons_inv_r in Hres as (j & idxs'' & Hj & Hres & ->).
  apply result_at_score in Hi as [Hi _], Hj as [Hj _]. simpl in Hi, Hj.
  assert (i = 2%nat) as ->
    by (destruct i as [|[|[|i]]]; simpl in Hi; by try discriminate).
  assert (j = 0%nat) as ->
    by (destruct j as [|[|[|j]]]; simpl in Hj; by try discriminate).
  apply StronglySorted_inv in HS as [_ H20].
  apply Forall_cons in H20 as [H20 _].
  destruct H20 as [Hlt|[_ Hlt]]; [|lia].
  vm_compute in Hlt. discriminate.
Qed.

(** C3: on the corpus A, B, C [search] with [top_k = 0], and with
    [top_k = -3], returns one result, not the empty sequence; with
    [top_k = 10], above the three admissible documents, it returns the
    three of them. *)
Theorem search_top_k_zero_returns_one :
  @search abc_backend abc_engine "wheel" 0 None None
    = inr [SearchResult doc_C 1] ∧
  @search abc_backend abc_engine "wheel" (-3) None None
    = inr [SearchResult doc_C 1] ∧
  @search abc_backend abc_engine "wheel" 10 None None
    = inr [SearchResult doc_C 1; SearchResult doc_A 1; SearchResult doc_B 0].
Proof. repeat split; reflexivity. Qed.

(** ** Errors of [search] *)

Section SearchErrors.
Context {B : Backend}.

Lemma search_length self query top_k cf tk rs :
  search self query top_k cf tk = inr rs →
  Z.of_nat (length rs) ≤ Z.max 1 top_k.
Proof.
  unfold search. destruct (embeddings self) as [E|]; [|done].
  intros H%search_loop_length. simpl in H. lia.
Qed.

(** C6: [search] on an engine whose embeddings are not loaded raises the
    [ValueError] of the missing embeddings, whatever the query, [top_k]
    and the filters, and so returns no result list, empty or not; on an
    engine whose embeddings are loaded it never raises a [ValueError]. *)
Theorem search_no_embeddings self query top_k cf tk :
  (embeddings self = None →
   search self query top_k cf tk = inl (ValueError no_embeddings_msg) ∧
   ∀ rs, search self query top_k cf tk ≠ inr rs) ∧
  (∀ E, embeddings self = Some E →
        ∀ msg, search self query top_k cf tk ≠ inl (ValueError msg)).
Proof.
  unfold search. split.
  - intros ->. done.
  - intros E -> msg H. by apply search_loop_error in H.
Qed.

End SearchErrors.

Lemma search_no_embeddings_witness :
  (@search abc_backend abc_unloaded "wheel" 5 None None
     = inl (ValueError no_embeddings_msg) ∧
   ∀ rs, @search abc_backend abc_unloaded "wheel" 5 None None ≠ inr rs) ∧
  (∀ msg, @search abc_backend abc_engine "wheel" 5 None None
            ≠ inl (ValueError msg)).
Proof.
  split.
  - apply (proj1 (@search_no_embeddings abc_backend abc_unloaded "wheel" 5 None None)).
    reflexivity.
  - apply (proj2 (@search_no_embeddings abc_backend abc_engine "wheel" 5 None None)
             [[1; 0]; [0; 1]; [1; 0]]%Q).
    reflexivity.
Defined.

(** ** [search_by_patent_id] *)

Lemma find_patent_None number idx ps :
  (∀ p, p ∈ ps → document_number p ≠ number) →
  find_patent number idx ps = None.
Proof.
  revert idx. induction ps as [|q ps IH]; intros idx Hno; simpl; [done|].
  destruct (String.eqb_spec (document_number q) number) as [Heq|_].
  - destruct (Hno q); [by left|done].
  - apply IH. intros p Hp. apply Hno. by right.
Qed.

Lemma find_patent_known number idx ps :
  (∃ p, p ∈ ps ∧ document_number p = number) →
  ∃ reference_idx reference_patent,
    find_patent number idx ps = Some (reference_idx, reference_patent).
Proof.
  revert idx. induction ps as [|q ps IH]; intros idx (p & Hp & Hnum); simpl.
  - by apply elem_of_nil in Hp.
  - destruct (String.eqb_spec (document_number q) number) as [_|Hne]; [by eauto|].
    apply IH. exists p. split; [|done].
    apply elem_of_cons in Hp as [->|Hp]; done.
Qed.

Lemma slice_to_subseteq {A} k (l : list A) x : x ∈ slice_to k l → x ∈ l.
Proof.
  unfold slice_to. destruct (0 <=? k); intros H;
    eapply elem_of_sublist; eauto using sublist_take.
Qed.

Lemma slice_to_length {A} k (l : list A) :
  Z.of_nat (length l) ≤ Z.max 1 (k + 1) →
  Z.of_nat (length (slice_to k l)) ≤ Z.max 0 k.
Proof.
  unfold slice_to. intros Hl.
  destruct (Z.leb_spec 0 k); rewrite length_take; lia.
Qed.

Section ByPatentId.
Context {B : Backend}.

(** C2, as the code has it: for a number that no patent of the corpus
    carries [search_by_patent_id] returns the empty list, whatever
    [top_k] and whether the embeddings are loaded or not; it raises
    nothing. *)
Theorem search_by_patent_id_unknown self number top_k :
  ¬ known self number →
  search_by_patent_id self number top_k = inr [].
Proof.
  intros Hno. unfold search_by_patent_id.
  rewrite find_patent_None; [done|].
  intros p Hp Hnum. apply Hno. by exists p.
Qed.

(** C4: on an engine whose embeddings are loaded, one row per patent,
    and for a number [X] that a patent of the corpus carries,
    [search_by_patent_id X k] returns a list in which no result carries
    [X], whatever corpus index the result comes from, and whose length is
    at most [k] (the list is empty when [k] is negative). *)
Theorem search_by_patent_id_excludes {HB : BackendSpec B} self number k :
  aligned self → known self number →
  ∃ rs,
    search_by_patent_id self number k = inr rs ∧
    Forall (λ r, document_number (result_patent r) ≠ number) rs ∧
    Z.of_nat (length rs) ≤ Z.max 0 k.
Proof.
  intros Hal Hknown. unfold search_by_patent_id.
  destruct (find_patent_known number 0 (patents self) Hknown)
    as (idx & ref & ->).
  destruct (search_ranked self (searchable_text ref) (k + 1) None None Hal)
    as (ranked & Hranked & _).
  rewrite Hranked. eexists. split; [done|]. split.
  - apply Forall_forall. intros r Hr%slice_to_subseteq.
    apply list_elem_of_In, filter_In in Hr as [_ Hr].
    destruct (String.eqb_spec (document_number (result_patent r)) number); done.
  - apply slice_to_length.
    pose proof (search_length _ _ _ _ _ _ Hranked).
    etrans; [|done]. apply inj_le, filter_length_le.
Qed.

(** The results of a list that carry a number and those that do not. *)
Lemma count_number_split number (rs : list search_result) :
  (count_number number rs +
   length (List.filter
             (λ r, negb (String.eqb (document_number (result_patent r)) number))
             rs))%nat = length rs.
Proof. apply filter_length. Qed.

(** Whenever two of the [k + 1] results that [search] ranks first carry
    the number [X], fewer than [k] results are left. *)
Lemma search_by_patent_id_shortfall self number k reference_idx reference_patent ranked :
  find_patent number 0 (patents self) = Some (reference_idx, reference_patent) →
  search self (searchable_text reference_patent) (k + 1) None None = inr ranked →
  (2 ≤ count_number number ranked)%nat →
  ∃ rs,
    search_by_patent_id self number k = inr rs ∧ Z.of_nat (length rs) < k.
Proof.
  intros Hfind Hranked Htwo. unfold search_by_patent_id.
  rewrite Hfind, Hranked. eexists. split; [done|].
  pose proof (search_length _ _ _ _ _ _ Hranked) as Hlen.
  pose proof (count_number_split number ranked) as Hsplit.
  unfold slice_to. destruct (Z.leb_spec 0 k); rewrite length_take; lia.
Qed.

End ByPatentId.

Lemma abc_unknown_Z : ¬ known abc_engine "Z".
Proof.
  intros (p & Hp & Hnum). simpl in Hp.
  repeat (apply elem_of_cons in Hp as [->|Hp]; [discriminate Hnum|]).
  by apply elem_of_nil in Hp.
Qed.

Lemma abc_unloaded_unknown_Z : ¬ known abc_unloaded "Z".
Proof. exact abc_unknown_Z. Qed.

Lemma dup_known_A : known dup_engine "A".
Proof. exists doc_A. split; [by left|done]. Qed.

Lemma search_by_patent_id_unknown_witness :
  @search_by_patent_id abc_backend abc_unloaded "Z" 5 = inr [].
Proof.
  apply (@search_by_patent_id_unknown abc_backend abc_unloaded "Z" 5).
  exact abc_unloaded_unknown_Z.
Defined.

(** C2, as the specification words it, fails on the corpus A, B, C: no
    patent carries the number "Z", and [search_by_patent_id] returns the
    empty list for it; it raises no error. *)
Lemma search_by_patent_id_unknown_no_error :
  ¬ known abc_engine "Z" ∧
  @search_by_patent_id abc_backend abc_engine "Z" 5 = inr [] ∧
  ¬ ∃ e, @search_by_patent_id abc_backend abc_engine "Z" 5 = inl e.
Proof.
  split; [exact abc_unknown_Z|]. split; [reflexivity|].
  intros [e He]. vm_compute in He. discriminate He.
Qed.

Lemma search_by_patent_id_excludes_witness :
  ∃ rs,
    @search_by_patent_id abc_backend dup_engine "A" 2 = inr rs ∧
    Forall (λ r, document_number (result_patent r) ≠ "A") rs ∧
    Z.of_nat (length rs) ≤ Z.max 0 2.
Proof.
  apply (@search_by_patent_id_excludes abc_backend (table_backend_spec _)
           dup_engine "A" 2).
  - exact dup_engine_aligned.
  - exact dup_known_A.
Defined.

(** C10: there is a corpus with at least [top_k] documents whose number is
    not [X] on which [search_by_patent_id X top_k] returns fewer than
    [top_k] results; and on every corpus, when two or more of the
    [top_k + 1] results that [search] ranks first for the reference patent
    carry the number [X], [search_by_patent_id X top_k] returns fewer than
    [top_k] results. *)
Theorem search_by_patent_id_falls_short :
  (∃ (B : Backend) self number top_k,
     BackendSpec B ∧ aligned self ∧
     top_k ≤ Z.of_nat (length (filter (λ p, document_number p ≠ number)
                                      (patents self))) ∧
     ∃ rs, search_by_patent_id self number top_k = inr rs ∧
           Z.of_nat (length rs) < top_k) ∧
  (∀ (B : Backend) self number top_k reference_idx reference_patent ranked,
     find_patent number 0 (patents self) = Some (reference_idx, reference_patent) →
     search self (searchable_text reference_patent) (top_k + 1) None None
       = inr ranked →
     (2 ≤ count_number number ranked)%nat →
     ∃ rs, search_by_patent_id self number top_k = inr rs ∧
           Z.of_nat (length rs) < top_k).
Proof.
  split.
  - exists abc_backend, dup_engine, "A", 2.
    split; [apply table_backend_spec|]. split; [exact dup_engine_aligned|].
    split; [by vm_compute|]. eexists. split; [reflexivity|]. by vm_compute.
  - intros B. apply search_by_patent_id_shortfall.
Qed.

Lemma search_by_patent_id_falls_short_witness :
  ∃ rs, @search_by_patent_id abc_backend dup_engine "A" 2 = inr rs ∧
        Z.of_nat (length rs) < 2.
Proof.
  apply (proj2 search_by_patent_id_falls_short abc_backend dup_engine "A" 2
           0%nat doc_A
           [SearchResult (mk_patent "A" "B60B" "Wheel hub, again" "text a") 1;
            SearchResult doc_A 1; SearchResult doc_C 0]).
  - reflexivity.
  - reflexivity.
  - vm_compute. lia.
Defined.

(** ** [get_search_statistics] *)

Lemma Qmax_cases x y : Qmax x y = x ∨ Qmax x y = y.
Proof.
  unfold Qmax, GenericMinMax.gmax. destruct (x ?= y)%Q; auto.
Qed.

Lemma Qmin_cases x y : Qmin x y = x ∨ Qmin x y = y.
Proof.
  unfold Qmin, GenericMinMax.gmin. destruct (x ?= y)%Q; auto.
Qed.

Lemma foldl_Qmax_elem xs x : foldl Qmax x xs ∈ x :: xs.
Proof.
  revert x. induction xs as [|y ys IH]; intros x; simpl; [by left|].
  specialize (IH (Qmax x y)). apply elem_of_cons in IH as [->|IH].
  - destruct (Qmax_cases x y) as [->| ->]; [by left|by right; left].
  - by do 2 right.
Qed.

Lemma foldl_Qmin_elem xs x : foldl Qmin x xs ∈ x :: xs.
Proof.
  revert x. induction xs as [|y ys IH]; intros x; simpl; [by left|].
  specialize (IH (Qmin x y)). apply elem_of_cons in IH as [->|IH].
  - destruct (Qmin_cases x y) as [->| ->]; [by left|by right; left].
  - by do 2 right.
Qed.

Lemma foldl_Qmax_upper xs x z : z ∈ x :: xs → (z <= foldl Qmax x xs)%Q.
Proof.
  revert x z. induction xs as [|y ys IH]; intros x z Hz; simpl.
  - apply list_elem_of_singleton in Hz as ->. apply Qle_refl.
  - apply elem_of_cons in Hz as [->|Hz].
    + eapply Qle_trans; [apply Q.le_max_l|]. apply IH. by left.
    + apply elem_of_cons in Hz as [->|Hz].
      * eapply Qle_trans; [apply Q.le_max_r|]. apply IH. by left.
      * apply IH. by right.
Qed.

Lemma foldl_Qmin_lower xs x z : z ∈ x :: xs → (foldl Qmin x xs <= z)%Q.
Proof.
  revert x z. induction xs as [|y ys IH]; intros x z Hz; simpl.
  - apply list_elem_of_singleton in Hz as ->. apply Qle_refl.
  - apply elem_of_cons in Hz as [->|Hz].
    + eapply Qle_trans; [|apply Q.le_min_l]. apply IH. by left.
    + apply elem_of_cons in Hz as [->|Hz].
      * eapply Qle_trans; [|apply Q.le_min_r]. apply IH. by left.
      * apply IH. by right.
Qed.



(** ** More on [_apply_filters] *)

Lemma filter_ext_elem {A} (P Q : A → Prop) `{!∀ x, Decision (P x)}
    `{!∀ x, Decision (Q x)} (l : list A) :
  (∀ x, x ∈ l → P x ↔ Q x) → filter P l = filter Q l.
Proof.
  induction l as [|a l IH]; intros HPQ; [done|].
  rewrite !filter_cons, IH by (intros x Hx; apply HPQ; by right).
  destruct (decide (P a)) as [HP|HP], (decide (Q a)) as [HQ|HQ]; try done;
    exfalso; apply (HPQ a) in HP || apply (HPQ a) in HQ; try done; by left.
Qed.

Section MoreFilterFacts.
Context {B : Backend}.

Lemma filter_loop_lower_bound cf tk ps idx :
  Forall (λ i, (idx ≤ i)%nat) (filter_loop cf tk idx ps).
Proof.
  apply Forall_forall. by intros i [Hi _]%filter_loop_spec.
Qed.

Lemma filter_loop_ascending cf tk ps idx :
  StronglySorted lt (filter_loop cf tk idx ps).
Proof.
  revert idx. induction ps as [|p ps IH]; intros idx; simpl; [constructor|].
  destruct (passes_filters cf tk p); [|apply IH].
  constructor; [apply IH|].
  eapply Forall_impl; [apply (filter_loop_lower_bound cf tk ps (S idx))|].
  simpl. lia.
Qed.

Lemma StronglySorted_lt_NoDup (l : list nat) : StronglySorted lt l → NoDup l.
Proof.
  induction 1 as [|x l _ IH Hx]; constructor; [|done].
  intros Hin. rewrite Forall_forall in Hx. specialize (Hx x Hin). lia.
Qed.

(** X1: the list of valid indices is in ascending corpus order, without
    repetition, and every index in it is an index of the corpus. *)
Theorem apply_filters_ascending self cf tk valid_indices :
  _apply_filters self cf tk = Some valid_indices →
  StronglySorted lt valid_indices ∧ NoDup valid_indices ∧
  Forall (λ i, (i < length (patents self))%nat) valid_indices.
Proof.
  intros Hv.
  assert (valid_indices = filter_loop cf tk 0 (patents self)) as ->.
  { unfold _apply_filters in Hv. destruct cf, tk; congruence. }
  pose proof (filter_loop_ascending cf tk (patents self) 0) as HS.
  split; [done|]. split; [by apply StronglySorted_lt_NoDup|].
  apply Forall_forall. intros i (_ & p & Hp & _)%filter_loop_spec.
  apply lookup_lt_Some in Hp. lia.
Qed.

(** X2: with both filters present the valid indices are those that each
    filter alone lets through. *)
Theorem apply_filters_both self c t i :
  (∃ l, _apply_filters self (Some c) (Some t) = Some l ∧ i ∈ l) ↔
  (∃ l, _apply_filters self (Some c) None = Some l ∧ i ∈ l) ∧
  (∃ l, _apply_filters self None (Some t) = Some l ∧ i ∈ l).
Proof.
  unfold _apply_filters. split.
  - intros (l & [= <-] & Hi).
    apply filter_loop_spec in Hi as (Hle & p & Hp & Hpass).
    unfold passes_filters in Hpass. apply andb_true_iff in Hpass as [Hc Ht].
    split; eexists; (split; [done|]); apply filter_loop_spec;
      (split; [done|]); exists p; (split; [done|]); unfold passes_filters.
    + by rewrite Hc.
    + by rewrite Ht.
  - intros [(l1 & [= <-] & H1) (l2 & [= <-] & H2)].
    apply filter_loop_spec in H1 as (Hle & p & Hp & Hc).
    apply filter_loop_spec in H2 as (_ & p' & Hp' & Ht).
    assert (p' = p) as -> by congruence.
    unfold passes_filters in Hc, Ht. rewrite andb_true_r in Hc. simpl in Ht.
    eexists. split; [done|]. apply filter_loop_spec. split; [done|].
    exists p. split; [done|]. unfold passes_filters. by rewrite Hc, Ht.
Qed.

Lemma caseless_truthy s t : caseless s t → PyStr.truthy s = PyStr.truthy t.
Proof. by destruct 1. Qed.

(** X3: the letter case of an ASCII title keyword does not matter: two
    ASCII keywords that are the same up to the case of the letters A to Z
    give the same valid indices, whatever the titles are. *)
Theorem apply_filters_keyword_case {HB : BackendSpec B} self cf t t' :
  PyStr.isascii t = true → PyStr.isascii t' = true → caseless t t' →
  _apply_filters self cf (Some t) = _apply_filters self cf (Some t').
Proof.
  intros Ht Ht' Hcase. unfold _apply_filters.
  assert (Hpass : ∀ p, passes_filters cf (Some t) p = passes_filters cf (Some t') p).
  { intros p. unfold passes_filters.
    rewrite (caseless_truthy t t' Hcase), (str_lower_ascii t Ht),
      (str_lower_ascii t' Ht').
    apply lower_caseless in Hcase. by rewrite Hcase. }
  assert (Hloop : ∀ ps idx, filter_loop cf (Some t) idx ps
                            = filter_loop cf (Some t') idx ps).
  { induction ps as [|p ps IH]; intros idx; simpl; [done|].
    by rewrite Hpass, !IH. }
  destruct cf; by rewrite Hloop.
Qed.

End MoreFilterFacts.

Lemma apply_filters_ascending_witness :
  StronglySorted lt [0; 2]%nat ∧ NoDup [0; 2]%nat ∧
  Forall (λ i, (i < length (patents abc_engine))%nat) [0; 2]%nat.
Proof.
  apply (@apply_filters_ascending abc_backend abc_engine (Some "B60") None
           [0; 2]%nat).
  reflexivity.
Defined.

Lemma apply_filters_keyword_case_witness :
  @_apply_filters abc_backend abc_engine None (Some "RIM")
  = @_apply_filters abc_backend abc_engine None (Some "Rim").
Proof.
  apply (@apply_filters_keyword_case abc_backend (table_backend_spec _)
           abc_engine None "RIM" "Rim").
  - reflexivity.
  - reflexivity.
  - by apply lower_caseless.
Defined.

(** ** More on [search] *)

Section SearchMore.
Context {B : Backend} {HB : BackendSpec B}.

Lemma apply_filters_elem self cf tk l i :
  _apply_filters self cf tk = Some l → i ∈ l →
  ∃ p, patents self !! i = Some p ∧ satisfies cf tk p.
Proof.
  intros Hl Hi.
  assert (l = filter_loop cf tk 0 (patents self)) as ->.
  { unfold _apply_filters in Hl. destruct cf, tk; congruence. }
  apply filter_loop_spec in Hi as (_ & p & Hp & Hpass).
  rewrite Nat.sub_0_r in Hp. exists p. split; [done|].
  by apply passes_filters_spec.
Qed.

Lemma apply_filters_elem_range self cf tk l i :
  _apply_filters self cf tk = Some l → i ∈ l → (i < length (patents self))%nat.
Proof.
  intros Hl Hi. destruct (apply_filters_elem _ _ _ _ _ Hl Hi) as (p & Hp & _).
  by apply lookup_lt_Some in Hp.
Qed.

Lemma admissible_Some l i : admissible (Some l) i ↔ i ∈ l.
Proof.
  unfold admissible, skipped. rewrite negb_false_iff. apply bool_decide_eq_true.
Qed.

Lemma admissible_None i : admissible None i.
Proof. done. Qed.

(** When the embeddings are loaded, and the matrix has no more rows than
    there are patents or a filter is present, no admissible index of the
    loop is out of range. *)
Lemma search_returns self query top_k cf tk E :
  embeddings self = Some E →
  (length E ≤ length (patents self))%nat ∨ is_Some cf ∨ is_Some tk →
  search self query top_k cf tk =
    inr (take (quota top_k 0)
           (omap (result_at self (similarities_of self query))
              (ranking (similarities_of self query) (_apply_filters self cf tk)))).
Proof.
  intros HE Hshape.
  pose proof (similarities_of_length self query) as Hs.
  unfold search, similarities_of in *. rewrite HE in *. simpl in *.
  rewrite search_loop_spec; [reflexivity|].
  intros i Hi Hadm.
  assert (Hrow : (i < length E)%nat).
  { rewrite <- Hs. apply np_argsort_elem.
    by apply list_elem_of_In, in_rev, list_elem_of_In in Hi. }
  apply result_at_is_Some; [|lia].
  destruct (_apply_filters self cf tk) as [l|] eqn:Hv.
  - apply admissible_Some in Hadm. by eapply apply_filters_elem_range.
  - destruct Hshape as [Hle|Hf]; [lia|].
    unfold _apply_filters in Hv.
    destruct cf, tk, Hf as [[? ?]|[? ?]]; done.
Qed.

(** X4: on an engine whose embeddings are loaded, one row per patent, the
    results of [search] with a filter present are by descending score and
    every one of them is a patent of the corpus that satisfies the
    filters: its code begins with the classification filter and the
    lower-case form of its title contains that of the keyword. For an
    ASCII keyword and ASCII titles the title of every result contains the
    keyword up to letter case. *)
Theorem search_filtered_results self query top_k cf tk :
  aligned self → is_Some cf ∨ is_Some tk →
  ∃ rs,
    search self query top_k cf tk = inr rs ∧
    descending rs ∧
    (∀ r, r ∈ rs →
       result_patent r ∈ patents self ∧ satisfies cf tk (result_patent r)) ∧
    ((∀ t, tk = Some t → PyStr.isascii t = true) → ascii_titles self →
     ∀ r, r ∈ rs →
       (∀ c, cf = Some c → is_prefix c (classification_code (result_patent r))) ∧
       (∀ t, tk = Some t → contains_caseless t (title (result_patent r)))).
Proof.
  intros Hal Hf. pose proof Hal as (E & HE & Hrows).
  eexists. split; [eapply search_returns; [exact HE|left; lia]|].
  set (s := similarities_of self query).
  destruct (_apply_filters self cf tk) as [l|] eqn:Hl; last first.
  { unfold _apply_filters in Hl. destruct cf, tk, Hf as [[? ?]|[? ?]]; done. }
  assert (Hres : results_of self s (ranking s (Some l))
                   (omap (result_at self s) (ranking s (Some l)))).
  { apply results_of_built. intros i [Hadm Hi]%ranking_elem.
    apply admissible_Some in Hadm.
    apply result_at_is_Some; [by eapply apply_filters_elem_range|done]. }
  assert (Hsat : ∀ r, r ∈ take (quota top_k 0)
                            (omap (result_at self s) (ranking s (Some l))) →
                      result_patent r ∈ patents self ∧
                      satisfies cf tk (result_patent r)).
  { intros r Hr.
    assert (Hr' : r ∈ omap (result_at self s) (ranking s (Some l)))
      by (eapply elem_of_sublist; [exact Hr|apply sublist_take]).
    apply list_elem_of_omap in Hr' as (i & Hi & Hri).
    apply ranking_elem in Hi as [Hadm _]. apply admissible_Some in Hadm.
    destruct (apply_filters_elem _ _ _ _ _ Hl Hadm) as (p & Hp & Hsatp).
    apply result_at_score in Hri as [Hri _].
    assert (result_patent r = p) as -> by congruence.
    split; [by eapply list_elem_of_lookup_2|done]. }
  split; [|split; [exact Hsat|]].
  - eapply (StronglySorted_Forall2 _ (λ a b, (score s b <= score s a)%Q));
      [|apply Forall2_take, Hres|].
    + intros a r a' r' [_ Ha]%result_at_score [_ Ha']%result_at_score Hle.
      by rewrite Ha, Ha'.
    + eapply StronglySorted_sublist; [apply sublist_take|].
      apply ranking_descending.
  - intros Ht Htitles r Hr. destruct (Hsat r Hr) as [Hin Hr'].
    apply (satisfies_ascii cf tk _ Ht); [by apply Htitles|done].
Qed.

End SearchMore.

Section SearchRanking.
Context {B : Backend} {HB : BackendSpec B}.
Variables (self : PatentSearchEngine) (query : string).
Variables (classification_filter title_keyword : option string).

Local Abbreviation sims := (similarities_of self query).
Local Abbreviation valid :=
  (_apply_filters self classification_filter title_keyword).

Lemma ranking_NoDup s v : NoDup (ranking s v).
Proof.
  unfold ranking. apply NoDup_filter.
  rewrite <- Permutation_rev, (np_argsort_perm s). apply NoDup_seq.
Qed.

Lemma aligned_similarities :
  aligned self → length sims = length (patents self).
Proof.
  intros (E & HE & Hlen). rewrite similarities_of_length, HE. done.
Qed.

(** X5: on an engine whose embeddings are loaded, one row per patent,
    [search] returns [max 1 top_k] results, or the results of all the
    admissible documents when there are fewer of them. *)
Theorem search_result_count top_k :
  aligned self →
  ∃ rs,
    search self query top_k classification_filter title_keyword = inr rs ∧
    length rs = (Z.to_nat (Z.max 1 top_k) `min`
                 length (admissible_indices self valid))%nat.
Proof.
  intros Hal.
  destruct (search_ranked self query top_k classification_filter title_keyword Hal)
    as (rs & Hrs & Hres).
  exists rs. split; [done|].
  rewrite (results_of_length _ _ _ _ Hres), length_take.
  rewrite (ranking_perm self) by by apply aligned_similarities.
  unfold quota. f_equal. lia.
Qed.

(** X6: on such an engine the results of [search] are the results of
    distinct corpus indices, all of them admissible: no document of the
    corpus is returned twice, and each result carries the patent and the
    similarity of its index. *)
Theorem search_results_distinct top_k :
  aligned self →
  ∃ idxs rs,
    search self query top_k classification_filter title_keyword = inr rs ∧
    results_of self sims idxs rs ∧
    NoDup idxs ∧
    ∀ i, i ∈ idxs → admissible valid i ∧ (i < length (patents self))%nat.
Proof.
  intros Hal.
  destruct (search_ranked self query top_k classification_filter title_keyword Hal)
    as (rs & Hrs & Hres).
  eexists _, rs. split; [done|]. split; [exact Hres|]. split.
  - eapply sublist_NoDup; [apply ranking_NoDup|apply sublist_take].
  - intros i Hi.
    assert (Hi' : i ∈ ranking sims valid)
      by (eapply elem_of_sublist; [exact Hi|apply sublist_take]).
    apply ranking_elem in Hi' as [Hadm Hlt]. split; [done|].
    by rewrite <- aligned_similarities.
Qed.

(** X7: on such an engine the results of [search] are the best: an
    admissible document that is not returned has a similarity no higher
    than that of any returned one. *)
Theorem search_results_best top_k :
  aligned self →
  ∃ idxs rs,
    search self query top_k classification_filter title_keyword = inr rs ∧
    results_of self sims idxs rs ∧
    ∀ i j, i ∈ idxs → j ∈ admissible_indices self valid → j ∉ idxs →
           (score sims j <= score sims i)%Q.
Proof.
  intros Hal.
  destruct (search_ranked self query top_k classification_filter title_keyword Hal)
    as (rs & Hrs & Hres).
  eexists _, rs. split; [done|]. split; [exact Hres|].
  intros i j Hi Hj Hnot.
  rewrite <- (ranking_perm self sims) in Hj by by apply aligned_similarities.
  pose proof (ranking_descending sims valid) as HS.
  rewrite <- (take_drop (quota top_k 0) (ranking sims valid)) in HS, Hj.
  apply elem_of_app in Hj as [Hj|Hj]; [done|].
  by apply (StronglySorted_app_1_elem_of _ _ _ i j HS).
Qed.

End SearchRanking.

Lemma search_result_count_witness :
  ∃ rs,
    @search abc_backend abc_engine "wheel" 2 (Some "B60") (Some "rim") = inr rs ∧
    length rs = (Z.to_nat (Z.max 1 2) `min`
                 length (admissible_indices abc_engine
                           (@_apply_filters abc_backend abc_engine (Some "B60") (Some "rim"))))%nat.
Proof.
  apply (@search_result_count abc_backend (table_backend_spec _) abc_engine
           "wheel" (Some "B60") (Some "rim") 2).
  exact abc_engine_aligned.
Defined.

Lemma search_results_distinct_witness :
  ∃ idxs rs,
    @search abc_backend abc_engine "wheel" 2 None None = inr rs ∧
    results_of abc_engine (@similarities_of abc_backend abc_engine "wheel") idxs rs ∧
    NoDup idxs ∧
    ∀ i, i ∈ idxs →
         admissible (@_apply_filters abc_backend abc_engine None None) i ∧
         (i < length (patents abc_engine))%nat.
Proof.
  apply (@search_results_distinct abc_backend (table_backend_spec _) abc_engine
           "wheel" None None 2).
  exact abc_engine_aligned.
Defined.

Lemma search_results_best_witness :
  ∃ idxs rs,
    @search abc_backend abc_engine "wheel" 1 None None = inr rs ∧
    results_of abc_engine (@similarities_of abc_backend abc_engine "wheel") idxs rs ∧
    ∀ i j, i ∈ idxs →
           j ∈ admissible_indices abc_engine (@_apply_filters abc_backend abc_engine None None) →
           j ∉ idxs →
           (score (@similarities_of abc_backend abc_engine "wheel") j
            <= score (@similarities_of abc_backend abc_engine "wheel") i)%Q.
Proof.
  apply (@search_results_best abc_backend (table_backend_spec _) abc_engine
           "wheel" None None 1).
  exact abc_engine_aligned.
Defined.

Lemma search_filtered_results_witness :
  ∃ rs,
    @search abc_backend abc_engine "wheel" 5 None (Some "RIM") = inr rs ∧
    descending rs ∧
    (∀ r, r ∈ rs →
       result_patent r ∈ patents abc_engine ∧
       @satisfies abc_backend None (Some "RIM") (result_patent r)) ∧
    ((∀ t, Some "RIM" = Some t → PyStr.isascii t = true) →
     ascii_titles abc_engine →
     ∀ r, r ∈ rs →
       (∀ c, None = Some c → is_prefix c (classification_code (result_patent r))) ∧
       (∀ t, Some "RIM" = Some t → contains_caseless t (title (result_patent r)))).
Proof.
  apply (@search_filtered_results abc_backend (table_backend_spec _) abc_engine
           "wheel" 5 None (Some "RIM")).
  - exact abc_engine_aligned.
  - right. by eexists.
Defined.

(** ** [search] on a matrix that does not match the corpus *)

Lemma elem_of_rev {A} (l : list A) x : x ∈ rev l ↔ x ∈ l.
Proof. rewrite !list_elem_of_In. symmetry. apply in_rev. Qed.

Lemma filter_all_elem {A} (P : A → Prop) `{!∀ x, Decision (P x)} (l : list A) :
  (∀ x, x ∈ l → P x) → filter P l = l.
Proof.
  induction l as [|a l IH]; intros HP; [done|].
  rewrite filter_cons, decide_True by (apply HP; by left).
  f_equal. apply IH. intros x Hx. apply HP. by right.
Qed.

Lemma filter_below_seq_length n a m :
  (length (filter (λ i, i < n)%nat (seq a m)) ≤ n - a)%nat.
Proof.
  revert a. induction m as [|m IH]; intros a; simpl; [lia|].
  rewrite filter_cons. specialize (IH (S a)).
  destruct (decide (a < n)%nat); simpl; lia.
Qed.

Section IndexErrors.
Context {B : Backend} {HB : BackendSpec B}.

Lemma search_loop_index_error self s top_k idxs results :
  (∀ i, i ∈ idxs → (i < length s)%nat) →
  (∃ i, i ∈ idxs ∧ (length (patents self) ≤ i)%nat) →
  Z.of_nat (length results +
            length (filter (λ i, i < length (patents self))%nat idxs)) < top_k →
  search_loop self s None top_k idxs results = inl IndexError.
Proof.
  revert results. induction idxs as [|idx rest IH]; intros results Hs Hbad Hk.
  - destruct Hbad as (i & Hi & _). by apply elem_of_nil in Hi.
  - simpl. rewrite filter_cons in Hk.
    destruct (decide (idx < length (patents self))%nat) as [Hlt|Hge].
    + apply lookup_lt_is_Some_2 in Hlt as Hp. destruct Hp as [p ->].
      destruct (lookup_lt_is_Some_2 s idx) as [x ->]; [apply Hs; by left|].
      simpl in Hk.
      destruct (Z.geb_spec (Z.of_nat (length (results ++ [SearchResult p x]))) top_k)
        as [Hge|_].
      { rewrite length_app in Hge. simpl in Hge. lia. }
      apply IH.
      * intros i Hi. apply Hs. by right.
      * destruct Hbad as (i & Hi & Hle). exists i. split; [|done].
        apply elem_of_cons in Hi as [->|Hi]; [lia|done].
      * rewrite length_app. simpl. lia.
    + rewrite lookup_ge_None_2 by lia. done.
Qed.

Lemma search_raises_index_error self query top_k E :
  embeddings self = Some E →
  (length (patents self) < length E)%nat →
  Z.of_nat (length (patents self)) < top_k →
  search self query top_k None None = inl IndexError.
Proof.
  intros HE Hrows Hk.
  pose proof (similarities_of_length self query) as Hs.
  unfold search, similarities_of in *. rewrite HE in *. simpl in *.
  set (s := cosine_similarity (model_encode query) E) in *.
  apply search_loop_index_error.
  - intros i Hi. apply np_argsort_elem.
    by apply list_elem_of_In, in_rev, list_elem_of_In in Hi.
  - exists (length (patents self)). split; [|done].
    apply elem_of_rev, np_argsort_elem. lia.
  - simpl. rewrite <- Permutation_rev, (np_argsort_perm s).
    pose proof (filter_below_seq_length (length (patents self)) 0 (length s)). lia.
Qed.

(** X8: when the matrix has more rows than there are patents, [search]
    without filters and with [top_k] above the number of patents raises
    [IndexError]: the loop reaches a row that has no patent before it has
    collected [top_k] results. *)
Theorem search_index_error self query top_k E :
  embeddings self = Some E →
  (length (patents self) < length E)%nat →
  Z.of_nat (length (patents self)) < top_k →
  search self query top_k None None = inl IndexError.
Proof. apply search_raises_index_error. Qed.

(** X9: when the matrix has at least one row and no more rows than there
    are patents, [search] without filters returns [max 1 top_k] results,
    or one per row when there are fewer rows, and every result comes from
    a patent whose index is a row of the matrix: the patents past the last
    row are never found. *)
Theorem search_short_matrix self query top_k E :
  embeddings self = Some E →
  E ≠ [] → (length E ≤ length (patents self))%nat →
  ∃ idxs rs,
    search self query top_k None None = inr rs ∧
    results_of self (similarities_of self query) idxs rs ∧
    length rs = (Z.to_nat (Z.max 1 top_k) `min` length E)%nat ∧
    ∀ i, i ∈ idxs → (i < length E)%nat.
Proof.
  intros HE _ Hrows.
  pose proof (similarities_of_length self query) as Hs.
  rewrite HE in Hs. simpl in Hs.
  set (s := similarities_of self query) in *.
  exists (take (quota top_k 0) (ranking s None)).
  eexists. split; [eapply (search_returns _ _ _ None None); eauto|].
  assert (Hin : ∀ i, i ∈ take (quota top_k 0) (ranking s None) →
                     (i < length E)%nat).
  { intros i Hi.
    assert (Hi' : i ∈ ranking s None)
      by (eapply elem_of_sublist; [exact Hi|apply sublist_take]).
    apply ranking_elem in Hi' as [_ Hlt]. lia. }
  assert (Hres : results_of self s (take (quota top_k 0) (ranking s None))
                   (take (quota top_k 0)
                      (omap (result_at self s) (ranking s None)))).
  { subst s. apply Forall2_take, results_of_built.
    intros i [_ Hi]%ranking_elem. apply result_at_is_Some; lia. }
  split; [exact Hres|]. split; [|done].
  etrans; [apply (results_of_length _ _ _ _ Hres)|]. rewrite length_take.
  assert (length (ranking s None) = length E) as ->.
  { unfold ranking.
    rewrite filter_all_elem by (intros i _; apply admissible_None).
    by rewrite length_rev, (np_argsort_perm s), length_seq. }
  unfold quota. f_equal. lia.
Qed.

End IndexErrors.

(** The corpus A, B, C with a matrix of four rows, and with one of two. *)
Lemma search_index_error_witness :
  @search abc_backend
     {| patents := patents abc_engine;
        embeddings := Some [[1; 0]; [0; 1]; [1; 0]; [0; 1]]%Q |}
     "wheel" 4 None None = inl IndexError.
Proof.
  apply (@search_index_error abc_backend (table_backend_spec _)
           {| patents := patents abc_engine;
              embeddings := Some [[1; 0]; [0; 1]; [1; 0]; [0; 1]]%Q |}
           "wheel" 4 [[1; 0]; [0; 1]; [1; 0]; [0; 1]]%Q).
  - reflexivity.
  - simpl. lia.
  - simpl. lia.
Defined.

Lemma search_short_matrix_witness :
  ∃ idxs rs,
    @search abc_backend
       {| patents := patents abc_engine; embeddings := Some [[1; 0]; [0; 1]]%Q |}
       "wheel" 5 None None = inr rs ∧
    results_of
      {| patents := patents abc_engine; embeddings := Some [[1; 0]; [0; 1]]%Q |}
      (@similarities_of abc_backend
         {| patents := patents abc_engine; embeddings := Some [[1; 0]; [0; 1]]%Q |}
         "wheel") idxs rs ∧
    length rs = (Z.to_nat (Z.max 1 5) `min` length [[1; 0]; [0; 1]]%Q)%nat ∧
    ∀ i, i ∈ idxs → (i < length [[1; 0]; [0; 1]]%Q)%nat.
Proof.
  apply (@search_short_matrix abc_backend (table_backend_spec _)
           {| patents := patents abc_engine; embeddings := Some [[1; 0]; [0; 1]]%Q |}
           "wheel" 5 [[1; 0]; [0; 1]]%Q).
  - reflexivity.
  - discriminate.
  - simpl. lia.
Defined.

(** ** An empty string as a filter *)

Lemma filter_loop_all `{Backend} cf tk idx ps :
  (∀ p, passes_filters cf tk p = true) →
  filter_loop cf tk idx ps = seq idx (length ps).
Proof.
  intros Hall. revert idx. induction ps as [|p ps IH]; intros idx; simpl; [done|].
  by rewrite Hall, IH.
Qed.

Lemma passes_filters_empty `{Backend} cf tk p :
  cf = None ∨ cf = Some "" → tk = None ∨ tk = Some "" →
  passes_filters cf tk p = true.
Proof. by intros [-> | ->] [-> | ->]. Qed.

(** X10: an empty string as a filter is no filter. [_apply_filters] then
    lets every index of the corpus through, and on an engine whose
    embeddings are loaded, one row per patent, [search] returns what it
    returns without filters. *)
Theorem search_empty_string_filter `{BackendSpec} self query top_k cf tk :
  aligned self →
  cf = None ∨ cf = Some "" → tk = None ∨ tk = Some "" →
  (∀ l, _apply_filters self cf tk = Some l → l = seq 0 (length (patents self))) ∧
  search self query top_k cf tk = search self query top_k None None.
Proof.
  intros Hal Hcf Htk.
  assert (Hl : ∀ l, _apply_filters self cf tk = Some l →
                    l = seq 0 (length (patents self))).
  { intros l Hl. rewrite <- (filter_loop_all cf tk 0 (patents self))
      by (intros p; by apply passes_filters_empty).
    unfold _apply_filters in Hl. destruct cf, tk; congruence. }
  split; [done|].
  rewrite !search_eq by done. do 3 f_equal.
  unfold ranking. apply filter_ext_elem. intros i Hi.
  apply elem_of_rev, np_argsort_elem in Hi.
  rewrite similarities_of_length in Hi. destruct Hal as (E & HE & Hlen).
  rewrite HE in Hi. simpl in Hi.
  split; [done|]. intros _.
  destruct (_apply_filters self cf tk) as [l|] eqn:Hv; [|done].
  apply admissible_Some. rewrite (Hl l eq_refl). apply elem_of_seq. lia.
Qed.

Lemma search_empty_string_filter_witness :
  (∀ l, @_apply_filters abc_backend abc_engine (Some "") None = Some l →
        l = seq 0 (length (patents abc_engine))) ∧
  @search abc_backend abc_engine "wheel" 2 (Some "") None
    = @search abc_backend abc_engine "wheel" 2 None None.
Proof.
  apply (@search_empty_string_filter abc_backend (table_backend_spec _)
           abc_engine "wheel" 2 (Some "") None).
  - exact abc_engine_aligned.
  - by right.
  - by left.
Defined.

(** ** More on [search_by_patent_id] *)

Lemma List_filter_sublist {A} (f : A → bool) (l : list A) :
  List.filter f l `sublist_of` l.
Proof.
  induction l as [|a l IH]; simpl; [constructor|].
  destruct (f a); by constructor.
Qed.

Lemma slice_to_sublist {A} k (l : list A) : slice_to k l `sublist_of` l.
Proof. unfold slice_to. destruct (0 <=? k); apply sublist_take. Qed.

Section ByPatentIdMore.
Context {B : Backend}.

(** X11: on an engine whose embeddings are not loaded
    [search_by_patent_id] raises the [ValueError] of [search] for a number
    that a patent of the corpus carries, while for any other number it
    returns the empty list. *)
Theorem search_by_patent_id_no_embeddings self number top_k :
  embeddings self = None →
  (known self number →
   search_by_patent_id self number top_k = inl (ValueError no_embeddings_msg)) ∧
  (¬ known self number → search_by_patent_id self number top_k = inr []).
Proof.
  intros HE. unfold search_by_patent_id. split.
  - intros Hk. destruct (find_patent_known number 0 (patents self) Hk)
      as (idx & ref & ->).
    unfold search. by rewrite HE.
  - intros Hno. rewrite find_patent_None; [done|].
    intros p Hp Hnum. apply Hno. by exists p.
Qed.

(** X12: on an engine whose embeddings are loaded, one row per patent, the
    results of [search_by_patent_id] for a number of the corpus are by
    descending score, and each of them is a patent of the corpus with a
    score of the reference text. *)
Theorem search_by_patent_id_descending {HB : BackendSpec B} self number top_k :
  aligned self → known self number →
  ∃ rs,
    search_by_patent_id self number top_k = inr rs ∧
    descending rs ∧
    ∀ r, r ∈ rs → result_patent r ∈ patents self.
Proof.
  intros Hal Hknown. unfold search_by_patent_id.
  destruct (find_patent_known number 0 (patents self) Hknown)
    as (idx & ref & ->).
  destruct (search_ranked self (searchable_text ref) (top_k + 1) None None Hal)
    as (ranked & Hranked & Hres).
  rewrite Hranked. eexists. split; [done|].
  set (s := similarities_of self (searchable_text ref)) in *.
  assert (Hsub : slice_to top_k
            (List.filter
               (λ r, negb (String.eqb (document_number (result_patent r)) number))
               ranked) `sublist_of` ranked).
  { etrans; [apply slice_to_sublist|apply List_filter_sublist]. }
  split.
  - eapply StronglySorted_sublist; [exact Hsub|].
    eapply (StronglySorted_Forall2 _ (λ a b, (score s b <= score s a)%Q));
      [|exact Hres|].
    + intros a r a' r' [_ Ha]%result_at_score [_ Ha']%result_at_score Hle.
      by rewrite Ha, Ha'.
    + eapply StronglySorted_sublist; [apply sublist_take|].
      apply ranking_descending.
  - intros r Hr. apply (elem_of_sublist _ _ _ Hr) in Hsub.
    apply list_elem_of_lookup in Hsub as [j Hj].
    destruct (Forall2_lookup_r _ _ _ _ _ Hres Hj) as (i & _ & Hi).
    apply result_at_score in Hi as [Hi _].
    by eapply list_elem_of_lookup_2.
Qed.

End ByPatentIdMore.

(** ** Numbers carried by one patent only *)

Lemma filter_ne_length (l : list nat) x :
  NoDup l →
  length (filter (λ i, i ≠ x) l) =
    if decide (x ∈ l) then (length l - 1)%nat else length l.
Proof.
  induction 1 as [|a l Ha Hnd IH]; [done|].
  rewrite filter_cons. destruct (decide (a ≠ x)) as [Hne|Heq].
  - simpl. rewrite IH.
    destruct (decide (x ∈ l)) as [Hin|Hout].
    + rewrite decide_True by by right.
      destruct l; [by apply elem_of_nil in Hin|simpl; lia].
    + rewrite decide_False; [done|]. by intros [->|?]%elem_of_cons.
  - apply dec_stable in Heq as ->. rewrite decide_True by by left.
    rewrite filter_all_elem; [simpl; lia|].
    intros i Hi ->. done.
Qed.

Lemma count_other_numbers self s number ix idxs rs :
  (∀ j q, patents self !! j = Some q → document_number q = number ↔ j = ix) →
  results_of self s idxs rs →
  length (List.filter
            (λ r, negb (String.eqb (document_number (result_patent r)) number)) rs)
  = length (filter (λ i, i ≠ ix) idxs).
Proof.
  intros Huniq. induction 1 as [|i r idxs rs Hir _ IH]; [done|].
  simpl. rewrite filter_cons.
  apply result_at_score in Hir as [Hp _]. specialize (Huniq _ _ Hp).
  destruct (String.eqb_spec (document_number (result_patent r)) number) as [Heq|Hne];
    simpl.
  - apply Huniq in Heq. rewrite decide_False by (intros ?; done). exact IH.
  - rewrite decide_True; [simpl; by rewrite IH|].
    intros Hi. apply Hne, Huniq, Hi.
Qed.

(** X13: on an engine whose embeddings are loaded, one row per patent, and
    for a number that exactly one patent carries, [search_by_patent_id]
    with [top_k ≥ 0] returns [top_k] results, or the results of all the
    other patents when there are fewer than [top_k] of them. *)
Theorem search_by_patent_id_count `{BackendSpec} self number top_k :
  aligned self → carried_once self number → 0 ≤ top_k →
  ∃ rs,
    search_by_patent_id self number top_k = inr rs ∧
    length rs = (Z.to_nat top_k `min` (length (patents self) - 1))%nat.
Proof.
  intros Hal (ix & px & Hpx & Hnum & Huniq) Hk. unfold search_by_patent_id.
  destruct (find_patent_known number 0 (patents self)) as (idx & ref & ->).
  { exists px. split; [by eapply list_elem_of_lookup_2|done]. }
  destruct (search_ranked self (searchable_text ref) (top_k + 1) None None Hal)
    as (ranked & Hranked & Hres).
  rewrite Hranked. eexists. split; [done|].
  set (s := similarities_of self (searchable_text ref)) in *.
  assert (Hlen : length s = length (patents self)).
  { destruct Hal as (E & HE & Hlen). unfold s.
    rewrite similarities_of_length, HE. done. }
  assert (Hperm : ranking s None ≡ₚ seq 0 (length (patents self))).
  { etrans; [by apply (ranking_perm self)|].
    unfold admissible_indices. by rewrite filter_all_elem. }
  assert (Hix : ix ∈ ranking s None).
  { rewrite Hperm. apply elem_of_seq. apply lookup_lt_Some in Hpx. lia. }
  assert (Hnd : NoDup (ranking s None)).
  { rewrite Hperm. apply NoDup_seq. }
  assert (Hq : quota (top_k + 1) 0 = S (Z.to_nat top_k)) by (unfold quota; lia).
  unfold _apply_filters in Hres. rewrite Hq in Hres.
  unfold slice_to. rewrite (proj2 (Z.leb_le 0 top_k) Hk), length_take.
  rewrite (count_other_numbers self s number ix _ _) with (2 := Hres); last first.
  { intros j q Hj. split; [by apply Huniq|]. intros ->. congruence. }
  rewrite filter_ne_length
    by (eapply sublist_NoDup; [exact Hnd|apply sublist_take]).
  assert (Hrl : length (ranking s None) = length (patents self))
    by (by rewrite Hperm, length_seq).
  rewrite length_take, Hrl.
  destruct (decide (ix ∈ take (S (Z.to_nat top_k)) (ranking s None))) as [Hin|Hout].
  - apply lookup_lt_Some in Hpx. lia.
  - assert (S (Z.to_nat top_k) < length (patents self))%nat; [|lia].
    destruct (decide (S (Z.to_nat top_k) < length (patents self))%nat); [done|].
    exfalso. apply Hout. rewrite take_ge; [done|]. lia.
Qed.

Lemma abc_carried_once_A : carried_once abc_engine "A".
Proof.
  exists 0%nat, doc_A. split; [done|]. split; [done|].
  intros [|[|[|j]]] q Hq Hnum; simpl in Hq; try done;
    injection Hq as <-; discriminate Hnum.
Qed.

Lemma search_by_patent_id_count_witness :
  ∃ rs,
    @search_by_patent_id abc_backend abc_engine "A" 1 = inr rs ∧
    length rs = (Z.to_nat 1 `min` (length (patents abc_engine) - 1))%nat.
Proof.
  apply (@search_by_patent_id_count abc_backend (table_backend_spec _)
           abc_engine "A" 1).
  - exact abc_engine_aligned.
  - exact abc_carried_once_A.
  - lia.
Defined.

Lemma search_by_patent_id_no_embeddings_witness :
  (known abc_unloaded "A" →
   @search_by_patent_id abc_backend abc_unloaded "A" 5
     = inl (ValueError no_embeddings_msg)) ∧
  (¬ known abc_unloaded "A" →
   @search_by_patent_id abc_backend abc_unloaded "A" 5 = inr []).
Proof.
  apply (@search_by_patent_id_no_embeddings abc_backend abc_unloaded "A" 5).
  reflexivity.
Defined.

Lemma search_by_patent_id_descending_witness :
  ∃ rs,
    @search_by_patent_id abc_backend dup_engine "A" 2 = inr rs ∧
    descending rs ∧
    ∀ r, r ∈ rs → result_patent r ∈ patents dup_engine.
Proof.
  apply (@search_by_patent_id_descending abc_backend (table_backend_spec _)
           dup_engine "A" 2).
  - exact dup_engine_aligned.
  - exact dup_known_A.
Defined.

(** ** More on [get_search_statistics] *)

Lemma stat_lookups (n : Z) (avg mx mn : Q) :
  let d : gmap string stat_value :=
    <[ "count" := SInt n ]>
    (<[ "avg_similarity" := SFloat avg ]>
    (<[ "max_similarity" := SFloat mx ]>
    (<[ "min_similarity" := SFloat mn ]> ∅))) in
  d !! "count" = Some (SInt n) ∧
  d !! "avg_similarity" = Some (SFloat avg) ∧
  d !! "max_similarity" = Some (SFloat mx) ∧
  d !! "min_similarity" = Some (SFloat mn).
Proof.
  simpl. repeat split.
Qed.

Lemma descending_head r rs x :
  descending (r :: rs) → x ∈ r :: rs →
  (similarity_score x <= similarity_score r)%Q.
Proof.
  intros [_ Hr]%StronglySorted_inv [->|Hx]%elem_of_cons; [apply Qle_refl|].
  rewrite Forall_forall in Hr. by apply Hr.
Qed.

Lemma descending_last rs r x :
  descending (rs ++ [r]) → x ∈ rs ++ [r] →
  (similarity_score r <= similarity_score x)%Q.
Proof.
  intros HS [Hx|Hx]%elem_of_app.
  - apply (StronglySorted_app_1_elem_of _ _ _ x r HS Hx). by left.
  - apply list_elem_of_singleton in Hx as ->. apply Qle_refl.
Qed.

(** X15: for the results of [search], which are by descending score, the
    greatest score of the statistics is the score of the first result and
    the least score is the score of the last one. *)
Theorem search_statistics_ends `{BackendSpec} self query top_k cf tk r rs :
  aligned self →
  search self query top_k cf tk = inr (r :: rs) →
  ∃ mx mn,
    get_search_statistics (r :: rs) !! "max_similarity" = Some (SFloat mx) ∧
    get_search_statistics (r :: rs) !! "min_similarity" = Some (SFloat mn) ∧
    (mx == similarity_score r)%Q ∧
    (mn == similarity_score (List.last rs r))%Q.
Proof.
  intros Hal Hs.
  assert (Hdesc : descending (r :: rs)).
  { destruct (search_ranked self query top_k cf tk Hal) as (rs' & Hrs' & Hres).
    assert (rs' = r :: rs) as -> by congruence.
    eapply (StronglySorted_Forall2 _
              (λ a b, (score (similarities_of self query) b
                       <= score (similarities_of self query) a)%Q));
      [|exact Hres|].
    - intros a x a' x' [_ Ha]%result_at_score [_ Ha']%result_at_score Hle.
      by rewrite Ha, Ha'.
    - eapply StronglySorted_sublist; [apply sublist_take|].
      apply ranking_descending. }
  set (scores := map similarity_score (r :: rs)).
  exists (np_max scores), (np_min scores).
  destruct (stat_lookups (Z.of_nat (length (r :: rs))) (np_mean scores)
              (np_max scores) (np_min scores)) as (_ & _ & H3 & H4).
  split; [done|]. split; [done|].
  assert (Hmem : ∀ y, y ∈ scores → ∃ x, x ∈ r :: rs ∧ y = similarity_score x).
  { intros y Hy. apply list_elem_of_fmap in Hy as (x & -> & Hx). eauto. }
  split; apply Qle_antisym.
  - destruct (Hmem (np_max scores)) as (x & Hx & ->); [apply foldl_Qmax_elem|].
    by apply (descending_head r rs).
  - apply foldl_Qmax_upper. by left.
  - apply foldl_Qmin_lower.
    apply list_elem_of_In, (in_map similarity_score (r :: rs)), list_elem_of_In.
    destruct rs as [|r' rs'] using rev_ind; [by left|].
    rewrite last_last. rewrite app_comm_cons. apply elem_of_app. right. by left.
  - destruct (Hmem (np_min scores)) as (x & Hx & ->); [apply foldl_Qmin_elem|].
    destruct rs as [|r' rs' _] using rev_ind; simpl.
    + apply list_elem_of_singleton in Hx as ->. apply Qle_refl.
    + rewrite last_last. rewrite app_comm_cons in Hdesc, Hx.
      by apply (descending_last (r :: rs')).
Qed.

Lemma search_statistics_ends_witness :
  ∃ mx mn,
    @get_search_statistics abc_backend
      [SearchResult doc_C 1; SearchResult doc_A 1; SearchResult doc_B 0]
      !! "max_similarity" = Some (SFloat mx) ∧
    @get_search_statistics abc_backend
      [SearchResult doc_C 1; SearchResult doc_A 1; SearchResult doc_B 0]
      !! "min_similarity" = Some (SFloat mn) ∧
    (mx == similarity_score (SearchResult doc_C 1))%Q ∧
    (mn == similarity_score
             (List.last [SearchResult doc_A 1; SearchResult doc_B 0]
                        (SearchResult doc_C 1)))%Q.
Proof.
  apply (@search_statistics_ends abc_backend (table_backend_spec _) abc_engine
           "wheel" 3 None None).
  - exact abc_engine_aligned.
  - reflexivity.
Defined.

(** ** The life of the embeddings *)

Section Lifecycle.
Context {B : Backend} {HB : BackendSpec B}.
Context {M : BatchEncoder} {HM : BatchEncoderSpec M}.
Context {F : Files}.

Lemma create_embeddings_engine self fs save_path :
  (create_embeddings self fs save_path).1.1 =
    {| patents := patents self;
       embeddings := Some (encode_batch (map searchable_text (patents self))) |}.
Proof.
  unfold create_embeddings. by destruct (write_pickle _ _ _).
Qed.

Lemma created_aligned self :
  aligned {| patents := patents self;
             embeddings := Some (encode_batch (map searchable_text (patents self))) |}.
Proof.
  eexists. split; [done|]. simpl. by rewrite encode_batch_length, length_map.
Qed.

Lemma search_not_value_error self query top_k cf tk E msg :
  embeddings self = Some E →
  search self query top_k cf tk ≠ inl (ValueError msg).
Proof.
  unfold search. intros -> Hs. by apply search_loop_error in Hs.
Qed.

(** X16: [create_embeddings] assigns the embeddings before it tries the
    save: whether or not the save goes through, it leaves an engine with
    the same patents whose matrix is what the encoder returns for the
    searchable texts of the patents, in the order of the corpus, one row
    per patent, whatever the engine held before; the guard of [search] on
    missing embeddings no longer fires. The call raises exactly when the
    save fails. *)
Theorem create_embeddings_ready self fs save_path :
  let self' := (create_embeddings self fs save_path).1.1 in
  patents self' = patents self ∧
  embeddings self' = Some (encode_batch (map searchable_text (patents self))) ∧
  aligned self' ∧
  (∀ query top_k cf tk,
     search self' query top_k cf tk ≠ inl (ValueError no_embeddings_msg)) ∧
  ((create_embeddings self fs save_path).2 = inr () ↔
   (write_pickle fs save_path
      (encode_batch (map searchable_text (patents self)))).2 = true).
Proof.
  simpl. rewrite create_embeddings_engine.
  split; [done|]. split; [done|]. split; [apply created_aligned|]. split.
  - intros query top_k cf tk. by eapply search_not_value_error.
  - unfold create_embeddings. destruct (write_pickle _ _ _) as [fs' []]; simpl.
    + done.
    + split; discriminate.
Qed.

(** X17: a matrix that [create_embeddings] saved is the one that
    [load_embeddings] reads back at the same path, into any engine: it
    returns [True] and the engine has the embeddings that were created. *)
Theorem create_load_round_trip {HF : FilesSpec F} self fs path self' fs' other :
  create_embeddings self fs path = (self', fs', inr ()) →
  load_embeddings other fs' path =
    ({| patents := patents other; embeddings := embeddings self' |}, true).
Proof.
  unfold create_embeddings, load_embeddings.
  destruct (write_pickle fs path _) as [fs1 saved] eqn:Hw.
  destruct saved; [|done]. intros [= <- <-].
  by rewrite (read_write_pickle _ _ _ _ Hw).
Qed.

(** X18: [load_embeddings] takes the stored matrix as it is. When the file
    is missing it returns [False] and leaves the engine as it was; when
    the stored matrix has more rows than the engine has patents it still
    returns [True], and [search] without filters then raises [IndexError]
    for every [top_k] above the number of patents. *)
Theorem load_embeddings_unchecked self fs path :
  (read_pickle fs path = None → load_embeddings self fs path = (self, false)) ∧
  (∀ E query top_k,
     read_pickle fs path = Some E →
     (length (patents self) < length E)%nat →
     Z.of_nat (length (patents self)) < top_k →
     (load_embeddings self fs path).2 = true ∧
     search (load_embeddings self fs path).1 query top_k None None
       = inl IndexError).
Proof.
  unfold load_embeddings. split; [by intros ->|].
  intros E query top_k -> Hrows Hk. split; [done|]. simpl.
  by apply (search_raises_index_error _ _ _ E).
Qed.

End Lifecycle.

Lemma table_batch_spec table : BatchEncoderSpec (table_batch table).
Proof. split. intros texts. simpl. apply length_map. Qed.

Lemma map_files_spec : FilesSpec map_files.
Proof.
  split. simpl. intros fs path E fs' [= <-]. apply lookup_insert_eq.
Qed.

Lemma create_embeddings_ready_witness :
  let table := [("text a", [1; 0]%Q); ("text b", [0; 1]%Q); ("text c", [1; 0]%Q)] in
  let self' :=
    (@create_embeddings (table_batch table) map_files
       abc_unloaded ∅ default_path).1.1 in
  patents self' = patents abc_unloaded ∧
  embeddings self' = Some [[1; 0]; [0; 1]; [1; 0]]%Q ∧
  aligned self' ∧
  (∀ query top_k cf tk,
     @search abc_backend self' query top_k cf tk
       ≠ inl (ValueError no_embeddings_msg)) ∧
  ((@create_embeddings (table_batch table) map_files
      abc_unloaded ∅ default_path).2 = inr () ↔
   (@write_pickle map_files ∅ default_path
      (@encode_batch (table_batch table)
         (map searchable_text (patents abc_unloaded)))).2 = true).
Proof.
  exact (@create_embeddings_ready abc_backend
           (table_batch [("text a", [1; 0]%Q); ("text b", [0; 1]%Q);
                         ("text c", [1; 0]%Q)])
           (table_batch_spec _) map_files abc_unloaded ∅ default_path).
Defined.

Lemma create_load_round_trip_witness :
  @load_embeddings map_files (__init__ [doc_B])
     {[ default_path := [[1; 0]; []; []]%Q ]} default_path
  = ({| patents := [doc_B]; embeddings := Some [[1; 0]; []; []]%Q |}, true).
Proof.
  apply (@create_load_round_trip (table_batch [("text a", [1; 0]%Q)]) map_files
           map_files_spec abc_unloaded ∅ default_path
           {| patents := patents abc_unloaded;
              embeddings := Some [[1; 0]; []; []]%Q |}
           {[ default_path := [[1; 0]; []; []]%Q ]} (__init__ [doc_B])).
  reflexivity.
Defined.

Lemma load_embeddings_unchecked_witness :
  (@load_embeddings map_files (__init__ [doc_B])
      {[ default_path := [[1; 0]; [0; 1]]%Q ]} default_path).2 = true ∧
  @search abc_backend
     (@load_embeddings map_files (__init__ [doc_B])
        {[ default_path := [[1; 0]; [0; 1]]%Q ]} default_path).1
     "wheel" 2 None None = inl IndexError.
Proof.
  apply (proj2 (@load_embeddings_unchecked abc_backend (table_backend_spec _)
                  map_files (__init__ [doc_B])
                  {[ default_path := [[1; 0]; [0; 1]]%Q ]} default_path)
           [[1; 0]; [0; 1]]%Q "wheel" 2).
  - reflexivity.
  - simpl. lia.
  - simpl. lia.
Defined.

(** ** The data loader *)

Section Loader.
Import DataLoader.
Context {P : Python}.

Lemma lower_map_fold_keys (f : string → string) members (m : gmap string json) :
  (∀ k, PyStr.lower (f k) = PyStr.lower k) →
  foldl (λ m kv, <[PyStr.lower kv.1 := kv.2]> m) m
        (map (λ kv, (f kv.1, kv.2)) members)
  = foldl (λ m kv, <[PyStr.lower kv.1 := kv.2]> m) m members.
Proof.
  intros Hf. revert m. induction members as [|[k v] members IH]; intros m; [done|].
  simpl. by rewrite Hf, IH.
Qed.

(** X20: the keys of a raw patent are read without regard to letter case:
    changing the case of the keys of the object changes nothing in the
    processed patent. *)
Theorem process_patent_key_case (f : string → string) object_id members :
  (∀ k, PyStr.lower (f k) = PyStr.lower k) →
  _process_patent object_id (JObj (map (λ kv, (f kv.1, kv.2)) members))
  = _process_patent object_id (JObj members).
Proof.
  intros Hf. unfold _process_patent, lower_map.
  by rewrite lower_map_fold_keys.
Qed.

Lemma lower_map_fold_lookup_ne members (m : gmap string json) key :
  Forall (λ kv, PyStr.lower kv.1 ≠ key) members →
  foldl (λ m kv, <[PyStr.lower kv.1 := kv.2]> m) m members !! key = m !! key.
Proof.
  revert m. induction members as [|[k v] members IH]; intros m Hne; [done|].
  apply Forall_cons in Hne as [Hk Hne]. simpl.
  rewrite IH by done. by rewrite lookup_insert_ne.
Qed.

Lemma pick_None (m : gmap string json) keys :
  (∀ key, key ∈ keys → m !! PyStr.lower key = None) → pick m keys = JNull.
Proof.
  induction keys as [|key keys IH]; intros Hnone; [done|].
  simpl. rewrite Hnone by by left. apply IH. intros k Hk. apply Hnone. by right.
Qed.

(** Every key that [_process_patent] looks for. *)
Local Abbreviation all_keys :=
  (document_number_keys ++ title_keys ++ abstract_keys ++ claims_keys ++
   detailed_description_keys ++ classification_code_keys ++ bibtext_citation_keys).

Lemma pick_unknown members keys :
  Forall (λ kv, PyStr.lower kv.1 ∉ map PyStr.lower all_keys) members →
  keys ⊆ all_keys →
  pick (lower_map members) keys = JNull.
Proof.
  intros Hun Hsub. apply pick_None. intros key Hkey.
  unfold lower_map. rewrite lower_map_fold_lookup_ne; [done|].
  eapply Forall_impl; [exact Hun|]. intros kv Hkv Heq. apply Hkv.
  rewrite Heq. apply list_elem_of_In, in_map, list_elem_of_In, Hsub, Hkey.
Qed.

(** X21: a raw patent that has none of the keys [_process_patent] looks
    for, the empty object among them, is accepted with every default: the
    number made from [id(patent)], the title "No Title Available", an empty
    abstract, no claims and no description, "N/A" for the classification
    code and the citation, and an empty searchable text. *)
Theorem process_patent_defaults {HP : PythonSpec P} object_id members :
  Forall (λ kv, PyStr.lower kv.1 ∉ map PyStr.lower all_keys) members →
  _process_patent object_id (JObj members) =
    inr {| document_number := "PATENT_" +:+ py_str (JNum (inject_Z object_id));
           title := JStr "No Title Available";
           abstract := JStr "";
           claims := JArr [];
           detailed_description := JArr [];
           classification_code := JStr "N/A";
           bibtext_citation := JStr "N/A";
           searchable_text := "" |}.
Proof.
  intros Hun. unfold _process_patent.
  rewrite !(pick_unknown members)
    by (done || (intros k Hk; rewrite !elem_of_app; tauto)).
  simpl. by rewrite py_str_string.
Qed.

(** X22: the first key that the object has decides, whatever its value:
    when the object has the key "document number" (in any letter case),
    the keys that come later in the list, such as "id", are not read. A
    value that is true gives the number; a value that is not (an empty
    string, null, zero) gives the number made from [id(patent)]. *)
Theorem process_patent_first_key {HP : PythonSpec P} object_id members v :
  lower_map members !! "document number" = Some v →
  ∃ p,
    _process_patent object_id (JObj members) = inr p ∧
    document_number p =
      if truthy v then py_str v
      else "PATENT_" +:+ py_str (JNum (inject_Z object_id)).
Proof.
  intros Hv. unfold _process_patent. eexists. split; [done|].
  cbn [document_number]. unfold document_number_keys. cbn [pick].
  change (PyStr.lower "document number") with "document number".
  rewrite Hv. destruct (truthy v); [done|]. by rewrite py_str_string.
Qed.

Lemma str_length_app (a b : string) :
  String.length (a +:+ b) = (String.length a + String.length b)%nat.
Proof.
  induction a as [|c a IH]; [done|].
  rewrite append_cons_l. simpl. by rewrite IH.
Qed.

Lemma str_take_length n s : (String.length (str_take n s) ≤ n)%nat.
Proof.
  revert s. induction n as [|n IH]; intros [|c s]; simpl; try lia.
  specialize (IH s). lia.
Qed.

Lemma join_snoc_length sep parts part :
  (String.length (join sep (parts ++ [part]))
   ≤ String.length (join sep parts) + String.length sep + String.length part)%nat.
Proof.
  induction parts as [|p parts IH]; [simpl; lia|].
  destruct parts as [|q parts].
  - simpl. rewrite !str_length_app. lia.
  - change (String.length (p +:+ sep +:+ join sep ((q :: parts) ++ [part]))
            ≤ String.length (p +:+ sep +:+ join sep (q :: parts))
              + String.length sep + String.length part)%nat.
    rewrite !str_length_app. lia.
Qed.

(** X23: the detailed description adds at most 1014 characters to the
    searchable text, however long it is: the separating space,
    "Description: " and the first 1000 characters of the text of its first
    three items. *)
Theorem searchable_text_description_bound patent :
  (String.length (_create_searchable_text patent)
   ≤ String.length
       (_create_searchable_text
          {| document_number := document_number patent;
             title := title patent;
             abstract := abstract patent;
             claims := claims patent;
             detailed_description := JNull;
             classification_code := classification_code patent;
             bibtext_citation := bibtext_citation patent;
             searchable_text := searchable_text patent |})
     + 1014)%nat.
Proof.
  unfold _create_searchable_text. cbn [title abstract claims detailed_description].
  set (parts := (if truthy (claims patent) then _ else _)).
  change (truthy JNull) with false. cbv iota.
  destruct (truthy (detailed_description patent)); [|lia].
  etrans; [apply join_snoc_length|].
  rewrite str_length_app.
  pose proof (str_take_length 1000
    match detailed_description patent with
    | JArr items => join " " (map py_str (take 3 items))
    | v => py_str v
    end).
  change (String.length " ") with 1%nat.
  change (String.length "Description: ") with 13%nat. lia.
Qed.

(** X24: [get_patent_by_id] returns the first patent of the list that
    carries the number, and [None] exactly when no patent carries it. *)
Theorem get_patent_by_id_first patents number :
  match get_patent_by_id patents number with
  | Some p =>
      ∃ i, patents !! i = Some p ∧ document_number p = number ∧
           ∀ j q, (j < i)%nat → patents !! j = Some q →
                  document_number q ≠ number
  | None => ∀ q, q ∈ patents → document_number q ≠ number
  end.
Proof.
  induction patents as [|p ps IH]; simpl.
  - intros q Hq. by apply elem_of_nil in Hq.
  - destruct (String.eqb_spec (document_number p) number) as [Heq|Hne].
    + exists 0%nat. split; [done|]. split; [done|]. intros j q Hj. lia.
    + destruct (get_patent_by_id ps number) as [p'|].
      * destruct IH as (i & Hi & Hnum & Hfirst).
        exists (S i). split; [done|]. split; [done|].
        intros [|j] q Hj Hq; simpl in Hq; [congruence|].
        apply (Hfirst j q); [lia|done].
      * intros q [->|Hq]%elem_of_cons; [done|by apply IH].
Qed.

(** X25: in the statistics of the loader the patents with an abstract and
    those without add up to the total, and so do those with claims and
    those without; no entry is negative. *)
Theorem get_statistics_partition patents :
  ∃ total with_abstract with_claims missing_abstract missing_claims,
    get_statistics patents !! "total_patents" = Some total ∧
    get_statistics patents !! "with_abstract" = Some with_abstract ∧
    get_statistics patents !! "with_claims" = Some with_claims ∧
    get_statistics patents !! "missing_abstract" = Some missing_abstract ∧
    get_statistics patents !! "missing_claims" = Some missing_claims ∧
    total = Z.of_nat (length patents) ∧
    with_abstract + missing_abstract = total ∧
    with_claims + missing_claims = total ∧
    0 ≤ with_abstract ∧ 0 ≤ missing_abstract ∧
    0 ≤ with_claims ∧ 0 ≤ missing_claims.
Proof.
  eexists _, _, _, _, _. unfold get_statistics.
  do 5 (split; [reflexivity|]). split; [done|].
  unfold count_truthy.
  pose proof (filter_length_le (λ p, truthy (abstract p)) patents).
  pose proof (filter_length_le (λ p, truthy (claims p)) patents).
  lia.
Qed.

End Loader.

Lemma str_of_strings_spec : DataLoader.PythonSpec DataLoader.str_of_strings.
Proof. by split. Qed.

Lemma process_patent_key_case_witness :
  @DataLoader._process_patent DataLoader.str_of_strings 7
    (DataLoader.JObj
       (map (λ kv, (PyStr.lower kv.1, kv.2))
          [("Title", DataLoader.JStr "Wheel"); ("ID", DataLoader.JStr "US1")]))
  = @DataLoader._process_patent DataLoader.str_of_strings 7
      (DataLoader.JObj
         [("Title", DataLoader.JStr "Wheel"); ("ID", DataLoader.JStr "US1")]).
Proof.
  apply (@process_patent_key_case DataLoader.str_of_strings PyStr.lower 7).
  exact lower_idemp.
Defined.

Lemma process_patent_defaults_witness :
  @DataLoader._process_patent DataLoader.str_of_strings 7
    (DataLoader.JObj [("inventor", DataLoader.JStr "N. N.")]) =
    inr {| DataLoader.document_number :=
             "PATENT_" +:+
             @DataLoader.py_str DataLoader.str_of_strings
               (DataLoader.JNum (inject_Z 7));
           DataLoader.title := DataLoader.JStr "No Title Available";
           DataLoader.abstract := DataLoader.JStr "";
           DataLoader.claims := DataLoader.JArr [];
           DataLoader.detailed_description := DataLoader.JArr [];
           DataLoader.classification_code := DataLoader.JStr "N/A";
           DataLoader.bibtext_citation := DataLoader.JStr "N/A";
           DataLoader.searchable_text := "" |}.
Proof.
  apply (@process_patent_defaults DataLoader.str_of_strings str_of_strings_spec 7
           [("inventor", DataLoader.JStr "N. N.")]).
  repeat constructor. vm_compute.
  intros H. repeat (apply elem_of_cons in H as [H|H]; [discriminate H|]).
  by apply elem_of_nil in H.
Defined.

Lemma process_patent_first_key_witness :
  ∃ p,
    @DataLoader._process_patent DataLoader.str_of_strings 7
      (DataLoader.JObj [("Document Number", DataLoader.JStr "");
                        ("id", DataLoader.JStr "US1")]) = inr p ∧
    DataLoader.document_number p =
      if DataLoader.truthy (DataLoader.JStr "")
      then @DataLoader.py_str DataLoader.str_of_strings (DataLoader.JStr "")
      else "PATENT_" +:+
           @DataLoader.py_str DataLoader.str_of_strings
             (DataLoader.JNum (inject_Z 7)).
Proof.
  apply (@process_patent_first_key DataLoader.str_of_strings str_of_strings_spec 7
           [("Document Number", DataLoader.JStr ""); ("id", DataLoader.JStr "US1")]
           (DataLoader.JStr "")).
  reflexivity.
Defined.

(** ** The similarity mode of the interface *)

Lemma List_filter_none {A} (f : A → bool) (l : list A) :
  (∀ x, x ∈ l → f x = false) → List.filter f l = [].
Proof.
  induction l as [|a l IH]; intros Hf; [done|].
  simpl. rewrite Hf by by left. apply IH. intros x Hx. apply Hf. by right.
Qed.

(** X26: a patent that is in the database is reported as not found when
    every patent of the corpus carries its number, as the only patent of a
    corpus does: [search_by_patent_id] leaves it out of its own results and
    the interface reads the empty result as a miss. *)
Theorem patent_similarity_round_not_found `{BackendSpec} engine doc_number :
  aligned engine → known engine doc_number →
  (∀ p, p ∈ patents engine → document_number p = doc_number) →
  PyStr.lower doc_number ∉ ["quit"; "exit"; "q"] → doc_number ≠ "" →
  patent_similarity_round engine doc_number = inr NotFound.
Proof.
  intros Hal Hknown Hall Hword Hne. unfold patent_similarity_round.
  rewrite bool_decide_eq_false_2 by done.
  destruct doc_number as [|c doc]; [done|]. cbn [PyStr.truthy negb].
  set (number := String c doc) in *.
  unfold search_by_patent_id.
  destruct (find_patent_known number 0 (patents engine) Hknown)
    as (idx & ref & ->).
  destruct (search_ranked engine (searchable_text ref) (5 + 1) None None Hal)
    as (ranked & -> & Hres).
  rewrite List_filter_none; [done|].
  intros r Hr. apply list_elem_of_lookup in Hr as [j Hj].
  destruct (Forall2_lookup_r _ _ _ _ _ Hres Hj) as (i & _ & Hi).
  apply result_at_score in Hi as [Hi _].
  apply list_elem_of_lookup_2, Hall in Hi. rewrite Hi.
  by rewrite String.eqb_refl.
Qed.

Lemma patent_similarity_round_not_found_witness :
  @patent_similarity_round abc_backend
     {| patents := [doc_B]; embeddings := Some [[0; 1]]%Q |} "B" = inr NotFound.
Proof.
  apply (@patent_similarity_round_not_found abc_backend (table_backend_spec _)
           {| patents := [doc_B]; embeddings := Some [[0; 1]]%Q |} "B").
  - by eexists.
  - exists doc_B. split; [by left|done].
  - intros p Hp. simpl in Hp. apply list_elem_of_singleton in Hp. by subst.
  - vm_compute. intros Hin.
    repeat (apply elem_of_cons in Hin as [Hin|Hin]; [discriminate Hin|]).
    by apply elem_of_nil in Hin.
  - discriminate.
Defined.
